(** * WoWLocaleTool: extraction of localization strings from Lua files

    A shallow embedding of [t.py] and the properties of its directory
    scan, its pattern matcher and its output writer.

    Text is modelled as lists of characters whose code points lie below
    256 (the Latin-1 range of Python's [str]); on that range [lower],
    the whitespace class [\s] and the wildcard [.] are the ones of
    Python 3. *)

From Equations Require Import Equations.
From Equations.Prop Require Import Logic.
From Stdlib Require Import String Ascii List Bool Arith Lia ZArith Permutation.
Import ListNotations.

(** ** Characters and strings *)

Definition str := list ascii.

(** A literal of the development, [lit "L"], is the list of its characters. *)
Definition lit (s : string) : str := list_ascii_of_string s.

Definition dquote : ascii := ascii_of_nat 34.
Definition squote : ascii := ascii_of_nat 39.
Definition newline : ascii := ascii_of_nat 10.
Definition lbracket : ascii := ascii_of_nat 91.
Definition rbracket : ascii := ascii_of_nat 93.
Definition lparen : ascii := ascii_of_nat 40.
Definition rparen : ascii := ascii_of_nat 41.

Fixpoint str_eqb (a b : str) : bool :=
  match a, b with
  | [], [] => true
  | x :: a', y :: b' => Ascii.eqb x y && str_eqb a' b'
  | _, _ => false
  end.

(** [x in t] for a tuple of strings [t]. *)
Definition str_in (x : str) (t : list str) : bool := existsb (str_eqb x) t.

(** [str.lower] on one character: [A-Z] and the accented capitals
    of Latin-1 (all of U+00C0..U+00DE but the sign U+00D7) move up by 32. *)
Definition lower_char (c : ascii) : ascii :=
  let n := nat_of_ascii c in
  if ((65 <=? n) && (n <=? 90))
     || ((192 <=? n) && (n <=? 222) && negb (n =? 215))
  then ascii_of_nat (n + 32) else c.

Definition lower (s : str) : str := map lower_char s.

(** [sep.join(parts)] *)
Fixpoint join (sep : str) (parts : list str) : str :=
  match parts with
  | [] => []
  | [p] => p
  | p :: rest => p ++ sep ++ join sep rest
  end.

(** [s.split(sep)] for a separator of one character: the tokens between
    separators, empty ones kept; never an empty list. *)
Fixpoint split_on (sep : ascii) (s : str) : list str :=
  match s with
  | [] => [[]]
  | c :: s' =>
      if Ascii.eqb c sep then [] :: split_on sep s'
      else match split_on sep s' with
           | tok :: toks => (c :: tok) :: toks
           | [] => [[c]]
           end
  end.

(** ** Insertion-ordered dictionaries

    A Python [dict] keeps its keys in the order of their first insertion;
    assigning to a key already present replaces the value in place. *)

Definition dict (V : Type) := list (str * V).

Fixpoint dict_set {V} (k : str) (v : V) (d : dict V) : dict V :=
  match d with
  | [] => [(k, v)]
  | (k', v') :: d' =>
      if str_eqb k' k then (k', v) :: d' else (k', v') :: dict_set k v d'
  end.

Fixpoint dict_get {V} (k : str) (d : dict V) : option V :=
  match d with
  | [] => None
  | (k', v') :: d' => if str_eqb k' k then Some v' else dict_get k d'
  end.

Definition dict_keys {V} (d : dict V) : list str := map fst d.

(** ** The exclusion test of the walker *)

(** [get_default_excluded_dirs()] *)
Definition get_default_excluded_dirs : list str :=
  [lit "language"; lit "lang"; lit "local"; lit "locales"; lit "locale";
   lit "locals"; lit "dict"; lit "lib"; lit "libs"].

(** [any(excluded.lower() in lua_file.parts for excluded in excluded_dirs)].
    The set [excluded_dirs] is a list in whatever order the set iterates. *)
Definition is_excluded (excluded_dirs : list str) (parts : list str) : bool :=
  existsb (fun excluded => str_in (lower excluded) parts) excluded_dirs.

(** ** The pattern

    Group 1 is the alternation of the escaped identifiers, each standing
    for itself. Then: any whitespace, an opening square bracket or
    parenthesis, group 2 (a double or single quote), group 3 (characters
    taken one by one by the wildcard while the quote of group 2 is not
    ahead), the quote of group 2 again, a closing square bracket or
    parenthesis. *)

(** The whitespace class of a [str] pattern: [str.isspace] on one
    character. *)
Definition is_space (c : ascii) : bool :=
  let n := nat_of_ascii c in
  ((9 <=? n) && (n <=? 13)) || ((28 <=? n) && (n <=? 32))
  || (n =? 133) || (n =? 160).

Definition is_open (c : ascii) : bool := Ascii.eqb c lbracket || Ascii.eqb c lparen.
Definition is_close (c : ascii) : bool := Ascii.eqb c rbracket || Ascii.eqb c rparen.
Definition is_quote (c : ascii) : bool := Ascii.eqb c dquote || Ascii.eqb c squote.

(** The greedy whitespace loop: what is left after the leading whitespace. *)
Fixpoint skip_space (s : str) : str :=
  match s with
  | c :: s' => if is_space c then skip_space s' else s
  | [] => []
  end.

(** Group 3, greedy, for the quote [q] that group 2 holds: the longest
    run of characters that are neither [q] nor a newline (the wildcard is
    used without DOTALL), and what follows it. *)
Fixpoint literal_run (q : ascii) (s : str) : str * str :=
  match s with
  | c :: s' =>
      if Ascii.eqb c q || Ascii.eqb c newline then ([], s)
      else let (run, rest) := literal_run q s' in (c :: run, rest)
  | [] => ([], [])
  end.

(** The pattern after its first group: the literal (group 3) and the text
    after the match. Neither greedy loop has a shorter iteration that
    could succeed: one whitespace character less leaves whitespace where
    a bracket is required, one literal character less leaves a character
    other than the quote where the quote is required. *)
Definition match_tail (s : str) : option (str * str) :=
  match skip_space s with
  | ob :: q :: s1 =>
      if is_open ob && is_quote q then
        match literal_run q s1 with
        | (text, q' :: cb :: rest) =>
            if Ascii.eqb q' q && is_close cb then Some (text, rest) else None
        | _ => None
        end
      else None
  | _ => None
  end.

(** An escaped identifier at the head of the text: the text after it. *)
Fixpoint strip_prefix (p s : str) : option str :=
  match p, s with
  | [], _ => Some s
  | x :: p', y :: s' => if Ascii.eqb x y then strip_prefix p' s' else None
  | _ :: _, [] => None
  end.

(** The alternatives of group 1 are tried in the order of the list; the
    first one after which the rest of the pattern matches is taken. *)
Fixpoint match_alternatives (alts : list str) (s : str) : option (str * str * str) :=
  match alts with
  | [] => None
  | ident :: alts' =>
      match strip_prefix ident s with
      | Some t =>
          match match_tail t with
          | Some (text, rest) => Some (ident, text, rest)
          | None => match_alternatives alts' s
          end
      | None => match_alternatives alts' s
      end
  end.

(** The escaped identifiers joined by the alternation bar inside group 1:
    an empty list leaves an empty group, which matches the empty string. *)
Definition alternatives (identifiers : list str) : list str :=
  match identifiers with
  | [] => [[]]
  | _ => identifiers
  end.

(** One attempt of the pattern at the head of [s]: groups 1 and 3 and the
    text after the match. *)
Definition match_at (identifiers : list str) (s : str) : option (str * str * str) :=
  match_alternatives (alternatives identifiers) s.

(** The text after a match is strictly shorter than the text the attempt
    started from: the scan below terminates. *)

Lemma skip_space_length (s : str) : length (skip_space s) <= length s.
Proof.
  induction s as [|c s IH]; simpl; [lia|].
  destruct (is_space c); simpl; lia.
Qed.

Lemma literal_run_length (q : ascii) (s : str) :
  length (snd (literal_run q s)) <= length s.
Proof.
  induction s as [|c s IH]; simpl; [lia|].
  destruct (Ascii.eqb c q || Ascii.eqb c newline); simpl; [lia|].
  destruct (literal_run q s) as [run rest]; simpl in *; lia.
Qed.

Lemma strip_prefix_length (p s t : str) :
  strip_prefix p s = Some t -> length t <= length s.
Proof.
  revert s; induction p as [|x p IH]; intros [|y s] H; simpl in H;
    try discriminate; try (injection H as <-; simpl; lia).
  destruct (Ascii.eqb x y); [|discriminate].
  apply IH in H. simpl; lia.
Qed.

Lemma match_tail_length (s text rest : str) :
  match_tail s = Some (text, rest) -> length rest < length s.
Proof.
  unfold match_tail. intros H.
  pose proof (skip_space_length s) as Hs.
  destruct (skip_space s) as [|ob [|q s1]]; try discriminate.
  destruct (is_open ob && is_quote q); [|discriminate].
  pose proof (literal_run_length q s1) as Hr.
  destruct (literal_run q s1) as [run [|q' [|cb rest']]]; try discriminate.
  destruct (Ascii.eqb q' q && is_close cb); [|discriminate].
  injection H as _ <-. simpl in *; lia.
Qed.

Lemma match_alternatives_length (alts : list str) (s ident text rest : str) :
  match_alternatives alts s = Some (ident, text, rest) -> length rest < length s.
Proof.
  induction alts as [|a alts IH]; simpl; [discriminate|].
  destruct (strip_prefix a s) as [t|] eqn:Hp; [|exact IH].
  destruct (match_tail t) as [[text' rest']|] eqn:Ht; [|exact IH].
  intros H; injection H as _ _ <-.
  apply match_tail_length in Ht. apply strip_prefix_length in Hp. lia.
Qed.

Lemma match_at_length (identifiers : list str) (s ident text rest : str) :
  match_at identifiers s = Some (ident, text, rest) -> length rest < length s.
Proof. apply match_alternatives_length. Qed.

(** [re.findall(pattern, content)]: the pattern is tried at the head of
    the text; after a match the scan goes on behind it, otherwise one
    character further. A match is the pair of groups 1 and 3 (group 2,
    the quote, is not kept by the caller). *)
Equations? findall (identifiers : list str) (s : str) : list (str * str)
  by wf (length s) lt :=
  findall identifiers [] := [];
  findall identifiers (c :: s') with inspect (match_at identifiers (c :: s')) := {
    | exist _ (Some (ident, text, rest)) _ => (ident, text) :: findall identifiers rest;
    | exist _ None _ => findall identifiers s' }.
Proof.
  match goal with
  | H : match_at _ _ = Some _ |- _ => apply match_at_length in H; exact H
  end.
Qed.

(** ** Extraction from one file *)

(** What the tool prints, line by line. The elapsed time is the
    difference of two readings of the clock. The line of the excluded
    directories joins the names in the order in which the set iterates,
    each name once; that order is left open, and the line is kept as the
    names it lists. *)
Inductive message : Type :=
| Processing (relative_path : str)
| DecodeError (file_path : str) (encoding : str)
| Processed (file_count : nat) (elapsed : Z)
| Saved (target_file : str)
| Summary (label : str) (value : str)
| ExcludedDirectories (names : list str).

(** The key of a match: the identifier, an opening square bracket, the
    literal between double quotes, a closing square bracket. *)
Definition composite_key (ident text : str) : str :=
  ident ++ lbracket :: dquote :: text ++ [dquote; rbracket].

(** The body of the loop over the matches: [strings[key] = match[2]]. *)
Definition record_match (strings : dict str) (m : str * str) : dict str :=
  dict_set (composite_key (fst m) (snd m)) (snd m) strings.

(** [extract_localization_strings]. The file is given by its path and by
    what reading it with the configured encoding gives: its text, or
    [None] when the read raises [UnicodeDecodeError]. The result is the
    mapping returned and the lines printed. *)
Definition extract_localization_strings
    (file_path : str) (read : option str) (identifiers : list str)
    (encoding : str) : dict str * list message :=
  match read with
  | Some content => (fold_left record_match (findall identifiers content) [], [])
  | None => ([], [DecodeError file_path encoding])
  end.

(** ** The directory scan and the writer *)

(** A file that [rglob] yields: its path below the source directory and
    the outcome of reading it. *)
Record lua_file : Type := {
  relative_parts : list str;
  read : option str
}.

(** [str(path)] for a path given by its parts; an absolute path starts
    with the root. *)
Definition path_str (parts : list str) : str :=
  match parts with
  | root :: rest => if str_eqb root (lit "/") then root ++ join (lit "/") rest
                    else join (lit "/") parts
  | [] => lit "."
  end.

(** The variables of the loop of [process_directory], and what it printed. *)
Record scan : Type := {
  all_strings : dict (dict str);
  file_count : nat;
  printed : list message
}.

Definition scan_start : scan :=
  {| all_strings := []; file_count := 0; printed := [] |}.

(** A dictionary is true when it is not empty. *)
Definition truthy {V} (d : dict V) : bool :=
  match d with [] => false | _ => true end.

(** One iteration of the loop over [source_dir.rglob]. *)
Definition scan_file (source_dir : list str) (excluded_dirs : list str)
    (identifiers : list str) (encoding : str) (st : scan) (f : lua_file) : scan :=
  let parts := source_dir ++ relative_parts f in
  if is_excluded excluded_dirs parts then st
  else
    let relative_path := path_str (relative_parts f) in
    let (strings, errors) :=
      extract_localization_strings (path_str parts) (read f) identifiers encoding in
    {| all_strings :=
         if truthy strings then dict_set relative_path strings (all_strings st)
         else all_strings st;
       file_count := S (file_count st);
       printed := printed st ++ Processing relative_path :: errors |}.

(** Opening the target for writing empties it; each [write] appends. *)
Definition open_w (previous : str) : str := [].

Definition write_entry (out : str) (kv : str * str) : str :=
  out ++ fst kv ++ lit " = " ++ dquote :: snd kv ++ [dquote; newline].

Definition write_block (out : str) (b : str * dict str) : str :=
  fold_left write_entry (snd b) (out ++ lit "--" ++ fst b ++ [newline]) ++ [newline].

(** The outcome of a run: the text of the target file, the lines printed
    and the count of processed files. *)
Record outcome : Type := {
  target_text : str;
  console : list message;
  processed : nat
}.

(** [process_directory]. [walk] is what [rglob] yields, in that order;
    [previous] is the text of the target file before the run;
    [start_time] and [end_time] are the two readings of the clock. *)
Definition process_directory (source_dir : list str) (target_file : str)
    (excluded_dirs : list str) (identifiers : list str) (encoding : str)
    (walk : list lua_file) (previous : str) (start_time end_time : Z) : outcome :=
  let st := fold_left (scan_file source_dir excluded_dirs identifiers encoding)
                      walk scan_start in
  {| target_text := fold_left write_block (all_strings st) (open_w previous);
     console := printed st ++ [Processed (file_count st) (end_time - start_time);
                               Saved target_file];
     processed := file_count st |}.

(** The resolved command line. *)
Record arguments : Type := {
  source : list str;
  target : list str;
  exclude : list str;
  encoding_arg : str;
  identifiers_arg : str
}.

Definition default_identifiers : str := lit "L,AL,C".

(** [main], after the target directory has been made. *)
Definition main (args : arguments) (walk : list lua_file) (previous : str)
    (start_time end_time : Z) : outcome :=
  let target_file := path_str (target args ++ [lit "localization_strings.lua"]) in
  let excluded_dirs := get_default_excluded_dirs ++ exclude args in
  let identifiers := split_on (ascii_of_nat 44) (identifiers_arg args) in
  let r := process_directory (source args) target_file excluded_dirs identifiers
             (encoding_arg args) walk previous start_time end_time in
  {| target_text := target_text r;
     console :=
       [Summary (lit "Source directory") (path_str (source args));
        Summary (lit "Target file") target_file;
        ExcludedDirectories excluded_dirs;
        Summary (lit "Identifiers") (join (lit ", ") identifiers);
        Summary (lit "Encoding") (encoding_arg args)] ++ console r;
     processed := processed r |}.

(** * Properties *)

(** ** Strings and dictionaries *)

Lemma str_eqb_eq (a b : str) : str_eqb a b = true <-> a = b.
Proof.
  revert b; induction a as [|x a IH]; intros [|y b]; simpl;
    try (split; [discriminate|discriminate]); [tauto|].
  rewrite andb_true_iff, Ascii.eqb_eq, IH. split.
  - intros [-> ->]; reflexivity.
  - intros H; injection H as -> ->; auto.
Qed.

Lemma str_eqb_refl (a : str) : str_eqb a a = true.
Proof. apply str_eqb_eq; reflexivity. Qed.

Lemma str_eqb_neq (a b : str) : str_eqb a b = false <-> a <> b.
Proof.
  rewrite <- str_eqb_eq. destruct (str_eqb a b); split; congruence.
Qed.

Lemma str_in_In (x : str) (t : list str) : str_in x t = true <-> In x t.
Proof.
  unfold str_in. rewrite existsb_exists. split.
  - intros [y [Hy He]]. apply str_eqb_eq in He; subst; exact Hy.
  - intros H; exists x; split; [exact H|apply str_eqb_refl].
Qed.

(** ** The scan for matches *)

Lemma findall_nil (identifiers : list str) : findall identifiers [] = [].
Proof. simp findall. reflexivity. Qed.

Lemma findall_match (identifiers : list str) (s ident text rest : str) :
  match_at identifiers s = Some (ident, text, rest) ->
  findall identifiers s = (ident, text) :: findall identifiers rest.
Proof.
  intros H. destruct s as [|c s'].
  - apply match_at_length in H. simpl in H; lia.
  - rewrite findall_equation_2.
    destruct (inspect (match_at identifiers (c :: s'))) as [[[[i t] r]|] e];
      simpl; rewrite e in H; [|discriminate].
    injection H as -> -> ->. reflexivity.
Qed.

Lemma findall_skip (identifiers : list str) (c : ascii) (s : str) :
  match_at identifiers (c :: s) = None ->
  findall identifiers (c :: s) = findall identifiers s.
Proof.
  intros H. rewrite findall_equation_2.
  destruct (inspect (match_at identifiers (c :: s))) as [[[[i t] r]|] e];
    simpl; rewrite e in H; [discriminate|reflexivity].
Qed.

(** Every property of the scan can be shown along its three cases. *)
Lemma findall_cases (identifiers : list str) (P : str -> list (str * str) -> Prop) :
  P [] [] ->
  (forall c s, match_at identifiers (c :: s) = None ->
     P s (findall identifiers s) -> P (c :: s) (findall identifiers s)) ->
  (forall s ident text rest, match_at identifiers s = Some (ident, text, rest) ->
     P rest (findall identifiers rest) ->
     P s ((ident, text) :: findall identifiers rest)) ->
  forall s, P s (findall identifiers s).
Proof.
  intros Hnil Hskip Hmatch s.
  remember (length s) as n eqn:Hn. revert s Hn.
  induction n as [n IH] using lt_wf_ind. intros s Hn.
  destruct s as [|c s'].
  - rewrite findall_nil. exact Hnil.
  - destruct (match_at identifiers (c :: s')) as [[[i t] r]|] eqn:Hm.
    + rewrite (findall_match _ _ _ _ _ Hm). apply Hmatch; [exact Hm|].
      apply (IH (length r)); [|reflexivity].
      apply match_at_length in Hm. lia.
    + rewrite (findall_skip _ _ _ Hm). apply Hskip; [exact Hm|].
      apply (IH (length s')); [subst; simpl; lia|reflexivity].
Qed.

(** ** The parts of the pattern *)

(** A character the wildcard takes while the quote [q] is not ahead. *)
Definition plain (q c : ascii) : Prop := c <> q /\ c <> newline.

Definition spaces (ws : str) : Prop := Forall (fun c => is_space c = true) ws.

Lemma skip_space_split (s : str) :
  exists ws, s = ws ++ skip_space s /\ spaces ws.
Proof.
  induction s as [|c s [ws [E F]]]; simpl.
  - exists []; split; [reflexivity|constructor].
  - destruct (is_space c) eqn:Hc.
    + exists (c :: ws); split; [simpl; congruence|constructor; assumption].
    + exists []; split; [reflexivity|constructor].
Qed.

Lemma skip_space_app (ws s : str) :
  spaces ws -> skip_space (ws ++ s) = skip_space s.
Proof.
  induction 1 as [|c ws Hc _ IH]; simpl; [reflexivity|].
  rewrite Hc. exact IH.
Qed.

Lemma open_not_space (c : ascii) : is_open c = true -> is_space c = false.
Proof.
  unfold is_open. rewrite orb_true_iff, !Ascii.eqb_eq.
  intros [-> | ->]; reflexivity.
Qed.

Lemma skip_space_open (c : ascii) (s : str) :
  is_open c = true -> skip_space (c :: s) = c :: s.
Proof. intros H; simpl. rewrite (open_not_space _ H). reflexivity. Qed.

Lemma literal_run_split (q : ascii) (s run rest : str) :
  literal_run q s = (run, rest) -> s = run ++ rest /\ Forall (plain q) run.
Proof.
  revert run rest; induction s as [|c s IH]; simpl; intros run rest H.
  - injection H as <- <-. split; [reflexivity|constructor].
  - destruct (Ascii.eqb c q || Ascii.eqb c newline) eqn:Hc.
    + injection H as <- <-. split; [reflexivity|constructor].
    + destruct (literal_run q s) as [run' rest'].
      injection H as <- <-. destruct (IH _ _ eq_refl) as [E F].
      apply orb_false_iff in Hc. destruct Hc as [Hq Hn].
      apply Ascii.eqb_neq in Hq, Hn.
      split; [simpl; congruence|constructor; [split; assumption|exact F]].
Qed.

Lemma literal_run_stop (q : ascii) (s run rest : str) (c : ascii) :
  literal_run q s = (run, c :: rest) -> c = q \/ c = newline.
Proof.
  revert run; induction s as [|x s IH]; simpl; intros run H; [discriminate|].
  destruct (Ascii.eqb x q || Ascii.eqb x newline) eqn:Hx.
  - injection H as <- -> <-. apply orb_true_iff in Hx.
    rewrite !Ascii.eqb_eq in Hx. exact Hx.
  - destruct (literal_run q s) as [run' rest'].
    injection H as <- ->. apply (IH _ eq_refl).
Qed.

Lemma literal_run_app (q : ascii) (text rest : str) (c : ascii) :
  Forall (plain q) text -> c = q \/ c = newline ->
  literal_run q (text ++ c :: rest) = (text, c :: rest).
Proof.
  intros F Hc. induction F as [|x text [Hq Hn] _ IH]; simpl.
  - replace (Ascii.eqb c q || Ascii.eqb c newline) with true; [reflexivity|].
    symmetry; apply orb_true_iff. rewrite !Ascii.eqb_eq. exact Hc.
  - apply Ascii.eqb_neq in Hq, Hn. rewrite Hq, Hn, IH. reflexivity.
Qed.

Lemma strip_prefix_app (p s t : str) : strip_prefix p s = Some t <-> s = p ++ t.
Proof.
  revert s; induction p as [|x p IH]; intros s; simpl.
  - split; [intros H; injection H as ->; reflexivity|intros ->; reflexivity].
  - destruct s as [|y s]; [split; discriminate|].
    destruct (Ascii.eqb x y) eqn:Hxy.
    + apply Ascii.eqb_eq in Hxy; subst y. rewrite IH.
      split; [intros ->; reflexivity|intros H; injection H as ->; reflexivity].
    + apply Ascii.eqb_neq in Hxy.
      split; [discriminate|intros H; injection H as -> _; congruence].
Qed.

(** The shape of a match behind the identifier: whitespace, an opening
    bracket, a quote [q], a literal whose characters are all [allowed q],
    the quote again, a closing bracket. *)
Definition tail_shape_of (allowed : ascii -> ascii -> Prop) (sub text : str) : Prop :=
  exists ws ob q cb,
    spaces ws /\ is_open ob = true /\ is_quote q = true /\
    Forall (allowed q) text /\ is_close cb = true /\
    sub = ws ++ ob :: q :: text ++ [q; cb].

(** The shape with the literal the pattern takes: no quote [q], no newline. *)
Definition tail_shape : str -> str -> Prop := tail_shape_of plain.

(** An occurrence: one of the identifier tokens, then the shape above. *)
Definition occurrence_of (allowed : ascii -> ascii -> Prop)
    (identifiers : list str) (sub ident text : str) : Prop :=
  In ident identifiers /\
  exists tail, sub = ident ++ tail /\ tail_shape_of allowed tail text.

Definition occurrence : list str -> str -> str -> str -> Prop :=
  occurrence_of plain.

(** The occurrence as the specification words it: the literal is any run
    of characters other than the quote. *)
Definition occurrence_as_specified : list str -> str -> str -> str -> Prop :=
  occurrence_of (fun q c => c <> q).

Lemma match_tail_sound (s text rest : str) :
  match_tail s = Some (text, rest) ->
  exists sub, s = sub ++ rest /\ tail_shape sub text.
Proof.
  unfold match_tail. intros H.
  destruct (skip_space_split s) as [ws [E F]].
  destruct (skip_space s) as [|ob [|q s1]]; try discriminate.
  destruct (is_open ob && is_quote q) eqn:Ho; [|discriminate].
  apply andb_true_iff in Ho. destruct Ho as [Ho Hq].
  destruct (literal_run q s1) as [run [|q' [|cb rest']]] eqn:Hr; try discriminate.
  destruct (Ascii.eqb q' q && is_close cb) eqn:Hc; [|discriminate].
  apply andb_true_iff in Hc. destruct Hc as [Hq' Hc].
  apply Ascii.eqb_eq in Hq'; subst q'. injection H as <- <-.
  apply literal_run_split in Hr. destruct Hr as [-> Fr].
  exists (ws ++ ob :: q :: run ++ [q; cb]). split.
  - rewrite E. rewrite <- !app_assoc. simpl. rewrite <- app_assoc. reflexivity.
  - exists ws, ob, q, cb. repeat split; assumption.
Qed.

Lemma match_tail_complete (sub text rest : str) :
  tail_shape sub text -> match_tail (sub ++ rest) = Some (text, rest).
Proof.
  intros (ws & ob & q & cb & F & Ho & Hq & Ft & Hc & ->).
  unfold match_tail. rewrite <- app_assoc, (skip_space_app _ _ F).
  simpl app. rewrite (skip_space_open _ _ Ho), Ho, Hq. simpl andb.
  rewrite <- app_assoc. simpl app.
  rewrite (literal_run_app _ _ _ _ Ft (or_introl eq_refl)).
  rewrite Ascii.eqb_refl, Hc. reflexivity.
Qed.

Lemma match_alternatives_sound (alts : list str) (s ident text rest : str) :
  match_alternatives alts s = Some (ident, text, rest) ->
  exists sub, s = sub ++ rest /\ occurrence alts sub ident text.
Proof.
  induction alts as [|a alts IH]; simpl; [discriminate|].
  assert (Hnext : match_alternatives alts s = Some (ident, text, rest) ->
                  exists sub, s = sub ++ rest /\
                              occurrence (a :: alts) sub ident text).
  { intros H. destruct (IH H) as [sub [E [Hin Hs]]].
    exists sub. split; [exact E|]. split; [right; exact Hin|exact Hs]. }
  destruct (strip_prefix a s) as [t|] eqn:Hp; [|exact Hnext].
  destruct (match_tail t) as [[text' rest']|] eqn:Ht; [|exact Hnext].
  intros H; injection H as <- <- <-.
  apply strip_prefix_app in Hp. apply match_tail_sound in Ht.
  destruct Ht as [tail [Et Hs]]. exists (a ++ tail). split.
  - rewrite Hp, Et, app_assoc. reflexivity.
  - split; [left; reflexivity|]. exists tail. split; [reflexivity|exact Hs].
Qed.

Lemma match_alternatives_complete (alts : list str) (sub ident text rest : str) :
  occurrence alts sub ident text ->
  exists ident' text' rest',
    match_alternatives alts (sub ++ rest) = Some (ident', text', rest').
Proof.
  intros [Hin [tail [-> Hs]]].
  induction alts as [|a alts IH]; [destruct Hin|]. simpl.
  destruct (strip_prefix a ((ident ++ tail) ++ rest)) as [t|] eqn:Hp.
  - destruct (match_tail t) as [[text' rest']|] eqn:Ht.
    + exists a, text', rest'. reflexivity.
    + destruct Hin as [->|Hin]; [|exact (IH Hin)].
      rewrite <- app_assoc in Hp. apply strip_prefix_app in Hp.
      apply app_inv_head in Hp. subst t.
      rewrite (match_tail_complete _ _ rest Hs) in Ht. discriminate.
  - destruct Hin as [->|Hin]; [|exact (IH Hin)].
    rewrite <- app_assoc in Hp.
    assert (E : strip_prefix ident (ident ++ tail ++ rest) = Some (tail ++ rest))
      by (apply strip_prefix_app; reflexivity).
    rewrite E in Hp. discriminate.
Qed.

Lemma alternatives_nonempty (identifiers : list str) :
  identifiers <> [] -> alternatives identifiers = identifiers.
Proof. destruct identifiers; [congruence|reflexivity]. Qed.

(** ** The exclusion test *)

Lemma is_excluded_iff (excluded_dirs parts : list str) :
  is_excluded excluded_dirs parts = true <->
  exists excluded, In excluded excluded_dirs /\ In (lower excluded) parts.
Proof.
  unfold is_excluded. rewrite existsb_exists.
  split; intros [e [Hin H]]; exists e; (split; [exact Hin|]);
    apply str_in_In; exact H.
Qed.

(** The test a case-insensitive comparison of segments would make: some
    segment and some excluded name are equal once both are lowered. *)
Definition excluded_case_insensitively (excluded_dirs parts : list str) : bool :=
  existsb (fun excluded => str_in (lower excluded) (map lower parts)) excluded_dirs.

(** C1. The walker skips a file when a segment of its path equals the
    lowered form of an excluded name; the segment itself is compared as it
    is. With the default excluded names, the path with the segments
    addon, Locale, strings.lua has a segment that equals the excluded name
    locale once both are lowered, so the case-insensitive test asks for
    the file to be skipped, and the walker does not skip it, while it does
    skip the same path with the segment locale. *)
Theorem exclusion_lowers_only_the_excluded_name :
  In (lit "locale") get_default_excluded_dirs /\
  lower (lit "Locale") = lower (lit "locale") /\
  excluded_case_insensitively get_default_excluded_dirs
    [lit "/"; lit "addon"; lit "Locale"; lit "strings.lua"] = true /\
  is_excluded get_default_excluded_dirs
    [lit "/"; lit "addon"; lit "Locale"; lit "strings.lua"] = false /\
  is_excluded get_default_excluded_dirs
    [lit "/"; lit "addon"; lit "locale"; lit "strings.lua"] = true /\
  is_excluded [lit "Build"] [lit "/"; lit "addon"; lit "Build"; lit "a.lua"] = false.
Proof.
  repeat split; try reflexivity.
  simpl. auto 10.
Qed.

(** ** What is matched, and where *)

(** The default identifiers, as [main] splits them. *)
Definition L_AL_C : list str := split_on (ascii_of_nat 44) default_identifiers.

Ltac differ := let H := fresh in intro H; vm_compute in H; discriminate H.




(** ** Dictionaries under assignment *)

Lemma str_eqb_sym (a b : str) : str_eqb a b = str_eqb b a.
Proof.
  destruct (str_eqb a b) eqn:E.
  - apply str_eqb_eq in E; subst. symmetry; apply str_eqb_refl.
  - apply str_eqb_neq in E. symmetry; apply str_eqb_neq. congruence.
Qed.

Lemma dict_keys_set {V} (k : str) (v : V) (d : dict V) :
  dict_keys (dict_set k v d) =
  if str_in k (dict_keys d) then dict_keys d else dict_keys d ++ [k].
Proof.
  induction d as [|[k' v'] d IH]; simpl; [reflexivity|].
  rewrite (str_eqb_sym k k'). destruct (str_eqb k' k); simpl; [reflexivity|].
  fold (dict_keys (dict_set k v d)). rewrite IH.
  fold (str_in k (dict_keys d)).
  destruct (str_in k (dict_keys d)); reflexivity.
Qed.

Lemma dict_get_set {V} (k k' : str) (v : V) (d : dict V) :
  dict_get k' (dict_set k v d) = if str_eqb k k' then Some v else dict_get k' d.
Proof.
  induction d as [|[k0 v0] d IH]; simpl.
  - reflexivity.
  - destruct (str_eqb k0 k) eqn:E0; simpl.
    + apply str_eqb_eq in E0; subst k0.
      destruct (str_eqb k k'); reflexivity.
    + destruct (str_eqb k0 k') eqn:E1; [|exact IH].
      apply str_eqb_eq in E1; subst k0.
      rewrite (str_eqb_sym k k'), E0. reflexivity.
Qed.

Lemma dict_set_In {V} (k k' : str) (v v' : V) (d : dict V) :
  In (k', v') (dict_set k v d) -> In (k', v') d \/ (k' = k /\ v' = v).
Proof.
  induction d as [|[k0 v0] d IH]; simpl.
  - intros [H|[]]. injection H as <- <-. right; split; reflexivity.
  - destruct (str_eqb k0 k) eqn:E0.
    + apply str_eqb_eq in E0; subst k0. intros [H|H]; [|left; right; exact H].
      injection H as <- <-. right; split; reflexivity.
    + intros [H|H]; [left; left; exact H|].
      destruct (IH H) as [H'|H']; [left; right; exact H'|right; exact H'].
Qed.

Lemma dict_set_fresh {V} (k : str) (v : V) (d : dict V) :
  ~ In k (dict_keys d) -> dict_set k v d = d ++ [(k, v)].
Proof.
  induction d as [|[k0 v0] d IH]; simpl; intros H; [reflexivity|].
  destruct (str_eqb k0 k) eqn:E0.
  - apply str_eqb_eq in E0. tauto.
  - rewrite IH; [reflexivity|tauto].
Qed.

(** ** The mapping extracted from the matches *)

Definition key_of (m : str * str) : str := composite_key (fst m) (snd m).

(** The elements of a list in the order of their first occurrence. *)
Fixpoint first_occurrences (l : list str) : list str :=
  match l with
  | [] => []
  | x :: xs => x :: filter (fun y => negb (str_eqb x y)) (first_occurrences xs)
  end.

(** The literal of the last match whose key is [k]. *)
Fixpoint last_value (k : str) (ms : list (str * str)) : option str :=
  match ms with
  | [] => None
  | m :: ms' =>
      match last_value k ms' with
      | Some v => Some v
      | None => if str_eqb (key_of m) k then Some (snd m) else None
      end
  end.

Definition collect (ms : list (str * str)) (d : dict str) : dict str :=
  fold_left record_match ms d.

Lemma filter_twice {A} (p q : A -> bool) (l : list A) :
  filter p (filter q l) = filter (fun x => q x && p x) l.
Proof.
  induction l as [|x l IH]; simpl; [reflexivity|].
  destruct (q x); simpl; [destruct (p x)|]; rewrite IH; reflexivity.
Qed.

Lemma collect_keys (ms : list (str * str)) (d : dict str) :
  dict_keys (collect ms d) =
  dict_keys d ++ filter (fun k => negb (str_in k (dict_keys d)))
                        (first_occurrences (map key_of ms)).
Proof.
  revert d; induction ms as [|m ms IH]; intros d; simpl.
  - rewrite app_nil_r. reflexivity.
  - unfold collect in *. rewrite IH. unfold record_match.
    fold (key_of m). rewrite dict_keys_set.
    destruct (str_in (key_of m) (dict_keys d)) eqn:Hk; simpl.
    + f_equal. rewrite filter_twice. apply filter_ext_in. intros k _.
      destruct (str_eqb (key_of m) k) eqn:E; simpl; [|reflexivity].
      apply str_eqb_eq in E; subst k. rewrite Hk. reflexivity.
    + rewrite <- app_assoc. simpl. do 2 f_equal.
      rewrite filter_twice. apply filter_ext. intros k.
      unfold str_in. rewrite existsb_app. simpl.
      rewrite orb_false_r, negb_orb, (str_eqb_sym k), andb_comm. reflexivity.
Qed.

Lemma first_occurrences_NoDup (l : list str) : NoDup (first_occurrences l).
Proof.
  induction l as [|x l IH]; simpl; constructor.
  - rewrite filter_In. intros [_ H]. rewrite str_eqb_refl in H. discriminate.
  - apply NoDup_filter. exact IH.
Qed.

Lemma first_occurrences_In (k : str) (l : list str) :
  In k (first_occurrences l) <-> In k l.
Proof.
  induction l as [|x l IH]; simpl; [tauto|].
  rewrite filter_In, IH. destruct (str_eqb x k) eqn:E.
  - apply str_eqb_eq in E. simpl. intuition (try discriminate; auto).
  - apply str_eqb_neq in E. simpl. tauto.
Qed.

Lemma collect_get (k : str) (ms : list (str * str)) (d : dict str) :
  dict_get k (collect ms d) =
  match last_value k ms with Some v => Some v | None => dict_get k d end.
Proof.
  revert d; induction ms as [|m ms IH]; intros d; simpl; [reflexivity|].
  unfold collect in *. rewrite IH.
  destruct (last_value k ms); [reflexivity|].
  unfold record_match. fold (key_of m). rewrite dict_get_set.
  destruct (str_eqb (key_of m) k); reflexivity.
Qed.

Lemma collect_In (k v : str) (ms : list (str * str)) (d : dict str) :
  In (k, v) (collect ms d) ->
  In (k, v) d \/ exists ident, In (ident, v) ms /\ k = composite_key ident v.
Proof.
  revert d; induction ms as [|[i t] ms IH]; intros d; simpl; [tauto|].
  intros H. apply IH in H. destruct H as [H|[ident [Hin E]]].
  - apply dict_set_In in H. simpl in H. destruct H as [H|[-> ->]]; [tauto|].
    right. exists i. split; [left; reflexivity|reflexivity].
  - right. exists ident. split; [right; exact Hin|exact E].
Qed.

Lemma collect_keys_empty (ms : list (str * str)) :
  dict_keys (collect ms []) = first_occurrences (map key_of ms).
Proof.
  rewrite collect_keys. simpl.
  induction (first_occurrences (map key_of ms)) as [|k l IH]; simpl; congruence.
Qed.

Lemma findall_literals_plain (identifiers : list str) (s : str) :
  Forall (fun m => ~ In newline (snd m)) (findall identifiers s).
Proof.
  apply findall_cases with (P := fun _ ms => Forall (fun m => ~ In newline (snd m)) ms).
  - constructor.
  - intros c s' _ H. exact H.
  - intros s' ident text rest Hm H. constructor; [|exact H]. simpl.
    apply match_alternatives_sound in Hm.
    destruct Hm as (sub & _ & _ & tail & _ & ws & ob & q & cb & _ & _ & _ & F & _).
    intros Hin. rewrite Forall_forall in F. destruct (F _ Hin) as [_ Hn].
    apply Hn. reflexivity.
Qed.

(** ** The extracted mapping *)

(** C3. With the identifiers L, AL and C, a content that holds the
    occurrences L, square bracket, Hello between double quotes and AL,
    parenthesis, World between single quotes gives exactly two entries,
    both with the key in its canonical form. In general every entry of the
    result has as its value the literal of a match and as its key the
    identifier of that match, an opening square bracket, a double quote,
    the literal, a double quote and a closing square bracket; and every
    match has its key in the result. *)
Theorem keys_are_canonical :
  (forall file_path encoding,
     extract_localization_strings file_path
       (Some (lit "local a = L[" ++ dquote :: lit "Hello" ++ dquote :: lit "]"
              ++ newline :: lit "local b = AL('World')" ++ [newline]))
       L_AL_C encoding
     = ([(lit "L[" ++ dquote :: lit "Hello" ++ dquote :: lit "]", lit "Hello");
         (lit "AL[" ++ dquote :: lit "World" ++ dquote :: lit "]", lit "World")],
        []))
  /\ (forall file_path content identifiers encoding k v,
        In (k, v) (fst (extract_localization_strings file_path (Some content)
                          identifiers encoding)) ->
        exists ident,
          In (ident, v) (findall identifiers content) /\
          k = ident ++ lbracket :: dquote :: v ++ [dquote; rbracket])
  /\ (forall file_path content identifiers encoding ident text,
        In (ident, text) (findall identifiers content) ->
        In (ident ++ lbracket :: dquote :: text ++ [dquote; rbracket])
           (dict_keys (fst (extract_localization_strings file_path (Some content)
                              identifiers encoding)))).
Proof.
  split; [|split].
  - intros file_path encoding. vm_compute. reflexivity.
  - intros file_path content identifiers encoding k v H. simpl in H.
    apply (collect_In k v _ []) in H. destruct H as [[]|H]. exact H.
  - intros file_path content identifiers encoding ident text H. simpl.
    fold (collect (findall identifiers content) []).
    rewrite collect_keys_empty. apply first_occurrences_In.
    apply (in_map key_of) in H. exact H.
Qed.

(** C6. The keys of the mapping extracted from a file are pairwise
    distinct; they stand in the order in which each first occurs among
    the matches; and the value under a key is the literal of the last
    match that has this key. *)
Theorem duplicate_keys_collapse (file_path content : str)
    (identifiers : list str) (encoding : str) :
  let strings := fst (extract_localization_strings file_path (Some content)
                        identifiers encoding) in
  let matches := findall identifiers content in
  NoDup (dict_keys strings)
  /\ dict_keys strings = first_occurrences (map key_of matches)
  /\ (forall k, dict_get k strings = last_value k matches)
  /\ length strings = length (first_occurrences (map key_of matches)).
Proof.
  simpl. fold (collect (findall identifiers content) []).
  split; [|split; [|split]].
  - rewrite collect_keys_empty. apply first_occurrences_NoDup.
  - apply collect_keys_empty.
  - intros k. rewrite collect_get. simpl.
    destruct (last_value k (findall identifiers content)); reflexivity.
  - rewrite <- collect_keys_empty. unfold dict_keys. rewrite length_map.
    reflexivity.
Qed.

Lemma literal_run_newline (q : ascii) (text tail : str) :
  Forall (fun c => c <> q) text -> In newline text ->
  exists run rest, literal_run q (text ++ tail) = (run, newline :: rest).
Proof.
  induction 1 as [|c text Hc _ IH]; intros Hin; [destruct Hin|]. simpl.
  apply Ascii.eqb_neq in Hc. rewrite Hc. simpl.
  destruct (Ascii.eqb c newline) eqn:Hn.
  - apply Ascii.eqb_eq in Hn; subst c. exists [], (text ++ tail). reflexivity.
  - destruct Hin as [E|Hin].
    + subst c. rewrite Ascii.eqb_refl in Hn. discriminate.
    + destruct (IH Hin) as [run [rest E]]. rewrite E.
      exists (c :: run), rest. reflexivity.
Qed.

(** C10. No value of the mapping extracted from a file holds a newline,
    whatever the file; and behind an identifier, a quoted literal in which
    a newline stands before the closing quote is not matched. *)
Theorem literals_hold_no_newline (file_path : str) (read : option str)
    (identifiers : list str) (encoding : str) :
  (forall k v,
     In (k, v) (fst (extract_localization_strings file_path read
                       identifiers encoding)) ->
     ~ In newline v)
  /\ (forall ws ob q text cb rest,
        spaces ws -> is_open ob = true -> is_quote q = true ->
        Forall (fun c => c <> q) text -> In newline text ->
        match_tail (ws ++ ob :: q :: text ++ q :: cb :: rest) = None).
Proof.
  split.
  - intros k v H. destruct read as [content|]; simpl in H; [|destruct H].
    apply (collect_In k v _ []) in H. destruct H as [[]|[ident [Hin _]]].
    pose proof (findall_literals_plain identifiers content) as F.
    rewrite Forall_forall in F. exact (F _ Hin).
  - intros ws ob q text cb rest Hws Ho Hq Ft Hn.
    unfold match_tail. rewrite (skip_space_app _ _ Hws).
    rewrite (skip_space_open _ _ Ho), Ho, Hq. simpl andb. cbv iota.
    assert (Hq' : newline <> q).
    { rewrite Forall_forall in Ft. exact (Ft _ Hn). }
    destruct (literal_run_newline q text (q :: cb :: rest) Ft Hn) as [run [rest' E]].
    rewrite E. apply Ascii.eqb_neq in Hq'.
    destruct rest' as [|cb' rest'']; [reflexivity|]. rewrite Hq'. reflexivity.
Qed.

(** ** The directory scan *)

Section Scan.

Variables (source_dir : list str) (excluded_dirs identifiers : list str)
          (encoding : str).

(** The relative path of a file, as the scan prints and records it. *)
Definition relative_path (f : lua_file) : str := path_str (relative_parts f).

Definition skipped (f : lua_file) : bool :=
  is_excluded excluded_dirs (source_dir ++ relative_parts f).

Definition strings_of (f : lua_file) : dict str :=
  fst (extract_localization_strings (path_str (source_dir ++ relative_parts f))
         (read f) identifiers encoding).

(** The blocks of a run as the specification words them: the files that
    are not skipped, in the order of the walk, each with its mapping,
    those with an empty mapping left out. *)
Definition results (walk : list lua_file) : dict (dict str) :=
  filter (fun b => truthy (snd b))
    (map (fun f => (relative_path f, strings_of f))
         (filter (fun f => negb (skipped f)) walk)).

Let step := scan_file source_dir excluded_dirs identifiers encoding.

Lemma scan_file_skipped (st : scan) (f : lua_file) :
  skipped f = true -> step st f = st.
Proof. unfold skipped, step, scan_file. intros ->. reflexivity. Qed.

Lemma scan_file_kept (st : scan) (f : lua_file) :
  skipped f = false ->
  all_strings (step st f) =
    (if truthy (strings_of f)
     then dict_set (relative_path f) (strings_of f) (all_strings st)
     else all_strings st)
  /\ file_count (step st f) = S (file_count st)
  /\ printed (step st f) =
       printed st ++ Processing (relative_path f)
         :: snd (extract_localization_strings
                   (path_str (source_dir ++ relative_parts f))
                   (read f) identifiers encoding).
Proof.
  unfold skipped, step, scan_file, strings_of. intros ->.
  destruct (extract_localization_strings _ _ _ _) as [strings errors].
  simpl. auto.
Qed.

Lemma scan_count (walk : list lua_file) (st : scan) :
  file_count (fold_left step walk st) =
  file_count st + length (filter (fun f => negb (skipped f)) walk).
Proof.
  revert st; induction walk as [|f walk IH]; intros st; simpl; [lia|].
  rewrite IH. destruct (skipped f) eqn:Hs; simpl.
  - rewrite (scan_file_skipped _ _ Hs). reflexivity.
  - destruct (scan_file_kept st f Hs) as (_ & -> & _). lia.
Qed.

Lemma scan_all_strings_ext (walk : list lua_file) (st1 st2 : scan) :
  all_strings st1 = all_strings st2 ->
  all_strings (fold_left step walk st1) = all_strings (fold_left step walk st2).
Proof.
  revert st1 st2; induction walk as [|f walk IH]; intros st1 st2 E; simpl;
    [exact E|].
  apply IH. destruct (skipped f) eqn:Hs.
  - rewrite !(scan_file_skipped _ _ Hs). exact E.
  - destruct (scan_file_kept st1 f Hs) as (-> & _).
    destruct (scan_file_kept st2 f Hs) as (-> & _).
    rewrite E. reflexivity.
Qed.

Lemma scan_printed_grows (walk : list lua_file) (st : scan) (m : message) :
  In m (printed st) -> In m (printed (fold_left step walk st)).
Proof.
  revert st; induction walk as [|f walk IH]; intros st H; simpl; [exact H|].
  apply IH. destruct (skipped f) eqn:Hs.
  - rewrite (scan_file_skipped _ _ Hs). exact H.
  - destruct (scan_file_kept st f Hs) as (_ & _ & ->).
    apply in_or_app. left; exact H.
Qed.

Lemma scan_all_strings (walk : list lua_file) (st : scan) :
  NoDup (map relative_path walk) ->
  (forall f, In f walk -> ~ In (relative_path f) (dict_keys (all_strings st))) ->
  all_strings (fold_left step walk st) = all_strings st ++ results walk.
Proof.
  revert st; induction walk as [|f walk IH]; intros st Hnd Hfresh; simpl.
  - unfold results. simpl. rewrite app_nil_r. reflexivity.
  - inversion Hnd as [|x l Hnotin Hnd']; subst.
    unfold results. simpl. destruct (skipped f) eqn:Hs; simpl.
    + rewrite (scan_file_skipped _ _ Hs). apply (IH _ Hnd').
      intros g Hg. apply Hfresh. right; exact Hg.
    + destruct (scan_file_kept st f Hs) as (Ea & _).
      destruct (truthy (strings_of f)) eqn:Ht.
      * rewrite dict_set_fresh in Ea by (apply Hfresh; left; reflexivity).
        rewrite (IH _ Hnd').
        -- rewrite Ea, <- app_assoc. reflexivity.
        -- intros g Hg. rewrite Ea. unfold dict_keys. rewrite map_app.
           intros Hin. apply in_app_or in Hin. destruct Hin as [Hin|[Hin|[]]].
           ++ apply (Hfresh g); [right; exact Hg|exact Hin].
           ++ simpl in Hin. apply Hnotin. rewrite Hin.
              apply in_map. exact Hg.
      * rewrite (IH _ Hnd').
        -- rewrite Ea. reflexivity.
        -- intros g Hg. rewrite Ea. apply Hfresh. right; exact Hg.
Qed.

End Scan.

(** ** The writer *)

(** The text of an entry and of a block, as the specification words them. *)
Definition entry_line (kv : str * str) : str :=
  fst kv ++ lit " = " ++ dquote :: snd kv ++ [dquote; newline].

Definition block (b : str * dict str) : str :=
  lit "--" ++ fst b ++ newline :: flat_map entry_line (snd b) ++ [newline].

Lemma write_entries (strings : dict str) (out : str) :
  fold_left write_entry strings out = out ++ flat_map entry_line strings.
Proof.
  revert out; induction strings as [|kv strings IH]; intros out; simpl.
  - rewrite app_nil_r. reflexivity.
  - rewrite IH. unfold write_entry, entry_line. rewrite <- !app_assoc. reflexivity.
Qed.

Lemma write_blocks (blocks : dict (dict str)) (out : str) :
  fold_left write_block blocks out = out ++ flat_map block blocks.
Proof.
  revert out; induction blocks as [|b blocks IH]; intros out; simpl.
  - rewrite app_nil_r. reflexivity.
  - rewrite IH. unfold write_block, block. rewrite write_entries.
    rewrite <- !app_assoc. simpl. rewrite <- !app_assoc. reflexivity.
Qed.

(** ** Runs *)


(** C7. When the files of the walk have pairwise distinct relative paths,
    the text of the target file after a run is, whatever the file held
    before, the blocks of the files that are not skipped and yield at
    least one string, in the order of the walk: two dashes and the
    relative path on a line, then for each key of the mapping the key, an
    equals sign between spaces and the value as extracted between double
    quotes on a line, then an empty line. *)
Theorem target_is_the_blocks
    (source_dir : list str) (target_file : str)
    (excluded_dirs identifiers : list str) (encoding : str)
    (walk : list lua_file) (previous : str) (start_time end_time : Z) :
  NoDup (map relative_path walk) ->
  target_text (process_directory source_dir target_file excluded_dirs identifiers
                 encoding walk previous start_time end_time)
  = flat_map block (results source_dir excluded_dirs identifiers encoding walk).
Proof.
  intros Hnd. simpl. rewrite write_blocks. unfold open_w. simpl.
  rewrite scan_all_strings; [reflexivity|exact Hnd|].
  intros f _ [].
Qed.

(** A file that is not skipped and whose read raises the decode error
    leaves the mappings of the run as they are: the run prints the line
    that reports it, writes the text it writes on the walk without this
    file, and counts one file more. *)
Lemma undecodable_file_adds_nothing
    (source_dir : list str) (target_file : str)
    (excluded_dirs identifiers : list str) (encoding : str)
    (before after : list lua_file) (bad : lua_file)
    (previous : str) (start_time end_time : Z) :
  read bad = None ->
  is_excluded excluded_dirs (source_dir ++ relative_parts bad) = false ->
  let file_path := path_str (source_dir ++ relative_parts bad) in
  let r := process_directory source_dir target_file excluded_dirs identifiers
             encoding (before ++ bad :: after) previous start_time end_time in
  let r' := process_directory source_dir target_file excluded_dirs identifiers
              encoding (before ++ after) previous start_time end_time in
  extract_localization_strings file_path (read bad) identifiers encoding
    = ([], [DecodeError file_path encoding])
  /\ In (DecodeError file_path encoding) (console r)
  /\ target_text r = target_text r'
  /\ processed r = S (processed r').
Proof.
  intros Hread Hkept. simpl.
  assert (Hs : skipped source_dir excluded_dirs bad = false) by exact Hkept.
  destruct (scan_file_kept source_dir excluded_dirs identifiers encoding
              (fold_left (scan_file source_dir excluded_dirs identifiers encoding)
                         before scan_start) bad Hs) as (Ea & Ec & Ep).
  unfold strings_of in Ea. rewrite Hread in Ea, Ep. simpl in Ea, Ep.
  split; [rewrite Hread; reflexivity|]. split; [|split].
  - apply in_or_app. left. rewrite fold_left_app. simpl.
    apply scan_printed_grows. rewrite Ep.
    apply in_or_app. right. right. left. reflexivity.
  - f_equal. rewrite !fold_left_app. simpl.
    apply scan_all_strings_ext. exact Ea.
  - rewrite !scan_count, !filter_app, !length_app. simpl.
    fold (skipped source_dir excluded_dirs bad). rewrite Hs. simpl. lia.
Qed.

Definition undecodable : lua_file :=
  {| relative_parts := [lit "broken.lua"]; read := None |}.

Definition greeting : lua_file :=
  {| relative_parts := [lit "ui"; lit "greeting.lua"];
     read := Some (lit "print(L['Hello'])") |}.

Lemma target_is_the_blocks_witness :
  target_text (process_directory [lit "/"; lit "addon"] (lit "out.lua")
                 get_default_excluded_dirs L_AL_C (lit "utf-8")
                 [undecodable; greeting] (lit "stale") 0 1)
  = flat_map block
      (results [lit "/"; lit "addon"] get_default_excluded_dirs L_AL_C
         (lit "utf-8") [undecodable; greeting]).
Proof.
  apply target_is_the_blocks.
  repeat constructor; simpl; intuition discriminate.
Defined.

Lemma is_excluded_same_set (ex1 ex2 parts : list str) :
  (forall x, In x ex1 <-> In x ex2) ->
  is_excluded ex1 parts = is_excluded ex2 parts.
Proof.
  intros H. apply eq_true_iff_eq. rewrite !is_excluded_iff.
  split; intros [e [Hin Hp]]; exists e; (split; [apply H; exact Hin|exact Hp]).
Qed.

Definition hello_file : lua_file :=
  {| relative_parts := [lit "a.lua"]; read := Some (lit "L['Hello']") |}.

Definition world_file : lua_file :=
  {| relative_parts := [lit "b.lua"]; read := Some (lit "L['World']") |}.

(** The text written by a run is a function of the source directory,
    the identifiers, the excluded names taken as a set and the files in
    the order in which the walk yields them: two runs that agree on these
    write the same text, whatever order the set of excluded names
    iterates in, whatever the target held before and whatever the clock
    reads. The order of the walk is part of it: the same two files
    yielded in the other order give another text. *)
Lemma same_walk_same_target :
  (forall source_dir target_file ex1 ex2 identifiers encoding walk
          previous1 previous2 start1 end1 start2 end2,
     (forall x, In x ex1 <-> In x ex2) ->
     target_text (process_directory source_dir target_file ex1 identifiers
                    encoding walk previous1 start1 end1)
     = target_text (process_directory source_dir target_file ex2 identifiers
                      encoding walk previous2 start2 end2))
  /\ Permutation [hello_file; world_file] [world_file; hello_file]
  /\ target_text (process_directory [lit "/"; lit "addon"] (lit "out.lua")
                    get_default_excluded_dirs L_AL_C (lit "utf-8")
                    [hello_file; world_file] [] 0 1)
     <> target_text (process_directory [lit "/"; lit "addon"] (lit "out.lua")
                       get_default_excluded_dirs L_AL_C (lit "utf-8")
                       [world_file; hello_file] [] 0 1).
Proof.
  split; [|split].
  - intros source_dir target_file ex1 ex2 identifiers encoding walk
           previous1 previous2 start1 end1 start2 end2 Hset.
    simpl. unfold open_w. do 2 f_equal.
    generalize scan_start.
    induction walk as [|f walk IH]; intros st; simpl; [reflexivity|].
    rewrite IH. f_equal. unfold scan_file.
    rewrite (is_excluded_same_set ex1 ex2 _ Hset). reflexivity.
  - apply perm_swap.
  - differ.
Qed.

(** ** Identifiers inside longer names *)

(** A character that is neither whitespace nor an opening bracket. *)
Definition name_char (c : ascii) : Prop := is_space c = false /\ is_open c = false.

Lemma match_tail_name_char (c : ascii) (s : str) :
  name_char c -> match_tail (c :: s) = None.
Proof.
  intros [Hs Ho]. unfold match_tail. simpl. rewrite Hs.
  destruct s as [|q s]; [reflexivity|]. rewrite Ho. reflexivity.
Qed.

(** An identifier made of such characters, found where a text starts with
    a run [w] of such characters that whitespace and an opening bracket
    follow, and behind which the pattern goes on, is the whole run. *)
Lemma identifier_spans_the_name (J w ws : str) (ob : ascii) (u t : str) :
  Forall name_char J -> Forall name_char w ->
  spaces ws -> is_open ob = true ->
  strip_prefix J (w ++ ws ++ ob :: u) = Some t ->
  match_tail t <> None -> J = w.
Proof.
  intros FJ. revert w. induction FJ as [|x J Hx _ IH]; intros w Fw Hws Ho Hp Hm.
  - simpl in Hp. injection Hp as <-.
    destruct Fw as [|c w Hc _]; [reflexivity|].
    simpl in Hm. rewrite (match_tail_name_char _ _ Hc) in Hm. congruence.
  - destruct Fw as [|c w Hc Fw]; simpl in Hp.
    + exfalso. destruct Hx as [Hxs Hxo].
      destruct Hws as [|c ws Hc _]; simpl in Hp.
      * destruct (Ascii.eqb x ob) eqn:E; [|discriminate].
        apply Ascii.eqb_eq in E; subst. congruence.
      * destruct (Ascii.eqb x c) eqn:E; [|discriminate].
        apply Ascii.eqb_eq in E; subst. congruence.
    + destruct (Ascii.eqb x c) eqn:E; [|discriminate].
      apply Ascii.eqb_eq in E; subst c. f_equal.
      exact (IH w Fw Hws Ho Hp Hm).
Qed.

Lemma match_alternatives_none (alts : list str) (s : str) :
  (forall J t, In J alts -> strip_prefix J s = Some t -> match_tail t = None) ->
  match_alternatives alts s = None.
Proof.
  induction alts as [|a alts IH]; intros H; simpl; [reflexivity|].
  destruct (strip_prefix a s) as [t|] eqn:Hp.
  - rewrite (H a t (or_introl eq_refl) Hp). apply IH.
    intros J t' Hin. apply H. right; exact Hin.
  - apply IH. intros J t' Hin. apply H. right; exact Hin.
Qed.

Lemma match_alternatives_only (alts : list str) (s ident t text rest : str) :
  In ident alts ->
  strip_prefix ident s = Some t -> match_tail t = Some (text, rest) ->
  (forall J t', In J alts -> strip_prefix J s = Some t' ->
                match_tail t' <> None -> J = ident) ->
  match_alternatives alts s = Some (ident, text, rest).
Proof.
  intros Hin Hp Hm. induction alts as [|a alts IH]; intros Honly; [destruct Hin|].
  simpl. destruct (strip_prefix a s) as [t'|] eqn:Hp'.
  - destruct (match_tail t') as [[text' rest']|] eqn:Hm'.
    + assert (a = ident).
      { apply (Honly a t' (or_introl eq_refl) Hp'). rewrite Hm'. discriminate. }
      subst a. congruence.
    + destruct Hin as [->|Hin]; [congruence|].
      apply (IH Hin). intros J t'' HJ. apply Honly. right; exact HJ.
  - destruct Hin as [->|Hin]; [congruence|].
    apply (IH Hin). intros J t'' HJ. apply Honly. right; exact HJ.
Qed.

(** The scan of a text arrives at the end of its part [before], with the
    matches [earlier] found on the way: every match that starts in that
    part ends in it. [rest] is the text behind that part. *)
Inductive scan_reaches (identifiers : list str) (rest : str) :
  str -> list (str * str) -> Prop :=
| reach_here : scan_reaches identifiers rest [] []
| reach_skip (c : ascii) (before : str) (earlier : list (str * str)) :
    match_at identifiers (c :: before ++ rest) = None ->
    scan_reaches identifiers rest before earlier ->
    scan_reaches identifiers rest (c :: before) earlier
| reach_match (sub before ident text : str) (earlier : list (str * str)) :
    match_at identifiers (sub ++ before ++ rest) = Some (ident, text, before ++ rest) ->
    scan_reaches identifiers rest before earlier ->
    scan_reaches identifiers rest (sub ++ before) ((ident, text) :: earlier).

Lemma scan_reaches_findall (identifiers : list str) (rest before : str)
    (earlier : list (str * str)) :
  scan_reaches identifiers rest before earlier ->
  findall identifiers (before ++ rest) = earlier ++ findall identifiers rest.
Proof.
  induction 1 as [|c before earlier Hm _ IH|sub before ident text earlier Hm _ IH].
  - reflexivity.
  - simpl. rewrite (findall_skip _ _ _ Hm). exact IH.
  - rewrite <- app_assoc. rewrite (findall_match _ _ _ _ _ Hm).
    simpl. rewrite IH. reflexivity.
Qed.

Section LongerName.

Variables (identifiers : list str) (ident : str).
Hypothesis ident_listed : In ident identifiers.
Hypothesis identifiers_are_names : Forall (Forall name_char) identifiers.

Variables (ws : str) (ob q : ascii) (text : str) (cb : ascii) (after : str).
Hypothesis ws_spaces : spaces ws.
Hypothesis ob_open : is_open ob = true.
Hypothesis q_quote : is_quote q = true.
Hypothesis text_plain : Forall (plain q) text.
Hypothesis cb_close : is_close cb = true.

Let literal : str := ws ++ ob :: q :: text ++ [q; cb].

Lemma identifiers_alternatives : alternatives identifiers = identifiers.
Proof.
  apply alternatives_nonempty. intros E. rewrite E in ident_listed.
  destruct ident_listed.
Qed.

Lemma literal_shape : tail_shape literal text.
Proof. exists ws, ob, q, cb. repeat split; assumption. Qed.

Lemma spans (J w t : str) :
  In J identifiers -> Forall name_char w ->
  strip_prefix J (w ++ literal ++ after) = Some t -> match_tail t <> None -> J = w.
Proof.
  intros HJ Fw. unfold literal. rewrite <- (app_assoc ws). simpl.
  apply identifier_spans_the_name; try assumption.
  rewrite Forall_forall in identifiers_are_names.
  exact (identifiers_are_names J HJ).
Qed.

Lemma ident_name : Forall name_char ident.
Proof.
  rewrite Forall_forall in identifiers_are_names.
  exact (identifiers_are_names ident ident_listed).
Qed.

Lemma match_at_identifier :
  match_at identifiers (ident ++ literal ++ after) = Some (ident, text, after).
Proof.
  unfold match_at. rewrite identifiers_alternatives.
  apply match_alternatives_only with (t := literal ++ after).
  - exact ident_listed.
  - apply strip_prefix_app. reflexivity.
  - apply match_tail_complete. exact literal_shape.
  - intros J t' HJ Hp Hm. exact (spans J ident t' HJ ident_name Hp Hm).
Qed.

Lemma match_at_inside_name (tail : str) :
  tail <> [] -> Forall name_char tail -> ~ In (tail ++ ident) identifiers ->
  match_at identifiers (tail ++ ident ++ literal ++ after) = None.
Proof.
  intros Hne Ft Hnot. unfold match_at. rewrite identifiers_alternatives.
  apply match_alternatives_none. intros J t HJ Hp.
  destruct (match_tail t) eqn:Hm; [exfalso|reflexivity].
  rewrite app_assoc in Hp.
  assert (E : J = tail ++ ident).
  { apply (spans J (tail ++ ident) t HJ); [|exact Hp|congruence].
    apply Forall_app. split; [exact Ft|exact ident_name]. }
  subst J. exact (Hnot HJ).
Qed.

Lemma findall_behind_name (name : str) :
  Forall name_char name ->
  (forall before tail, name = before ++ tail -> tail <> [] ->
                       ~ In (tail ++ ident) identifiers) ->
  findall identifiers (name ++ ident ++ literal ++ after)
  = (ident, text) :: findall identifiers after.
Proof.
  induction 1 as [|c name Hc Fn IH]; intros Hlonger.
  - simpl. apply findall_match. exact match_at_identifier.
  - simpl. rewrite findall_skip.
    + apply IH. intros before tail E. apply (Hlonger (c :: before)).
      simpl. rewrite E. reflexivity.
    + apply (match_at_inside_name (c :: name)).
      * discriminate.
      * constructor; assumption.
      * apply (Hlonger [] (c :: name)); [reflexivity|discriminate].
Qed.

End LongerName.


(** An earlier match can reach over the name: in the text below, the
    match of L that starts at its head takes the whole of MyL and its
    literal as its own literal, and the key of L with x is not recorded. *)
Lemma earlier_match_reaches_over_the_name :
  let content :=
    lit "L['MyL[" ++ dquote :: lit "x" ++ dquote :: lit "]']" in
  let strings := fst (extract_localization_strings (lit "/addon/a.lua")
                        (Some content) L_AL_C (lit "utf-8")) in
  length strings = 1
  /\ dict_get (composite_key (lit "L") (lit "x")) strings = None.
Proof. split; vm_compute; reflexivity. Qed.



(** * Further properties of the code *)

(** ** The identifiers of the command line *)

Definition comma : ascii := ascii_of_nat 44.

Lemma split_on_nonempty (sep : ascii) (s : str) : split_on sep s <> [].
Proof.
  destruct s as [|c s]; simpl; [discriminate|].
  destruct (Ascii.eqb c sep); [discriminate|].
  destruct (split_on sep s); discriminate.
Qed.

Lemma join_cons (sep p : str) (rest : list str) :
  rest <> [] -> join sep (p :: rest) = p ++ sep ++ join sep rest.
Proof. destruct rest; [congruence|reflexivity]. Qed.

(** The tokens that [main] passes on as identifiers: the list is never
    empty, so that the pattern always has the tokens themselves as its
    alternatives; no token holds a comma; and the tokens joined by commas
    give the argument back, so that every token, an empty one too, is kept
    at its place. *)
Theorem identifiers_of_the_argument (argument : str) :
  let identifiers := split_on comma argument in
  identifiers <> []
  /\ alternatives identifiers = identifiers
  /\ Forall (fun token => ~ In comma token) identifiers
  /\ join [comma] identifiers = argument.
Proof.
  simpl. split; [apply split_on_nonempty|].
  split; [apply alternatives_nonempty, split_on_nonempty|].
  induction argument as [|c s [IHf IHj]]; simpl.
  - split; [repeat constructor; intros []|reflexivity].
  - pose proof (split_on_nonempty comma s) as Hne.
    destruct (Ascii.eqb c comma) eqn:Hc.
    + apply Ascii.eqb_eq in Hc; subst c. split.
      * constructor; [intros []|exact IHf].
      * rewrite join_cons by exact Hne. rewrite IHj. reflexivity.
    + apply Ascii.eqb_neq in Hc.
      destruct (split_on comma s) as [|tok toks]; [congruence|].
      inversion IHf as [|x l Htok Htoks]; subst. split.
      * constructor; [|exact Htoks].
        intros [E|Hin]; [congruence|exact (Htok Hin)].
      * destruct toks as [|tok' toks]; simpl in *; congruence.
Qed.

(** ** The exclusion test of a run *)

Lemma default_names_are_lowered :
  Forall (fun name => lower name = name) get_default_excluded_dirs.
Proof. repeat constructor. Qed.

(** With the excluded names that [main] builds, the default ones and the
    ones of the command line, a path is skipped exactly when one of its
    segments is, letter for letter, a default name or the lowered form of
    a name of the command line. *)
Theorem skipped_by_main (extra parts : list str) :
  is_excluded (get_default_excluded_dirs ++ extra) parts = true <->
  (exists segment, In segment parts /\ In segment get_default_excluded_dirs)
  \/ (exists name, In name extra /\ In (lower name) parts).
Proof.
  rewrite is_excluded_iff. pose proof default_names_are_lowered as Hd.
  rewrite Forall_forall in Hd. split.
  - intros [e [Hin Hp]]. apply in_app_or in Hin. destruct Hin as [Hin|Hin].
    + left. exists e. rewrite (Hd e Hin) in Hp. split; assumption.
    + right. exists e. split; assumption.
  - intros [[seg [Hp Hin]]|[e [Hin Hp]]].
    + exists seg. split; [apply in_or_app; left; exact Hin|].
      rewrite (Hd seg Hin). exact Hp.
    + exists e. split; [apply in_or_app; right; exact Hin|exact Hp].
Qed.

(** ** The order of the identifiers *)

Lemma match_alternatives_app (pre post : list str) (s : str) :
  match_alternatives (pre ++ post) s =
  match match_alternatives pre s with
  | Some r => Some r
  | None => match_alternatives post s
  end.
Proof.
  induction pre as [|a pre IH]; simpl; [reflexivity|].
  destruct (strip_prefix a s) as [t|]; [|exact IH].
  destruct (match_tail t) as [[text rest]|]; [reflexivity|exact IH].
Qed.

(** The identifiers are tried in the order in which they are listed: at
    one place of the text, the match of a list made of two lists is the
    match of the first list when it has one, and the match of the second
    list only otherwise. *)
Theorem earlier_identifiers_win (pre post : list str) (s : str) :
  pre <> [] -> post <> [] ->
  match_at (pre ++ post) s =
  match match_at pre s with
  | Some r => Some r
  | None => match_at post s
  end.
Proof.
  intros Hpre Hpost. unfold match_at.
  rewrite !alternatives_nonempty; try assumption.
  - apply match_alternatives_app.
  - destruct pre; [congruence|discriminate].
Qed.

Lemma earlier_identifiers_win_witness :
  match_at ([lit "A"] ++ [lit "AL"]) (lit "AL['x']") = Some (lit "AL", lit "x", [])
  /\ match_at ([lit "A"] ++ [lit "AL"]) (lit "A['x']") = Some (lit "A", lit "x", []).
Proof.
  split.
  - rewrite (earlier_identifiers_win [lit "A"] [lit "AL"] (lit "AL['x']")
               ltac:(discriminate) ltac:(discriminate)).
    reflexivity.
  - rewrite (earlier_identifiers_win [lit "A"] [lit "AL"] (lit "A['x']")
               ltac:(discriminate) ltac:(discriminate)).
    reflexivity.
Defined.

(** ** Matches within the content *)

Lemma occurrence_length (alts : list str) (sub ident text : str) :
  occurrence alts sub ident text ->
  length ident + length text + 4 <= length sub.
Proof.
  intros [_ [tail [-> (ws & ob & q & cb & _ & _ & _ & _ & _ & ->)]]].
  rewrite !length_app. simpl. rewrite length_app. simpl. lia.
Qed.

Lemma first_occurrences_length (l : list str) :
  length (first_occurrences l) <= length l.
Proof.
  induction l as [|x l IH]; simpl; [lia|].
  pose proof (filter_length_le (fun y => negb (str_eqb x y)) (first_occurrences l)).
  lia.
Qed.

(** The cost of a match in characters of the content: its identifier, its
    literal, the two brackets and the two quotes. *)
Definition match_cost (m : str * str) : nat := length (fst m) + length (snd m) + 4.

Lemma findall_cost (identifiers : list str) (s : str) :
  list_sum (map match_cost (findall identifiers s)) <= length s.
Proof.
  apply findall_cases with
    (P := fun s ms => list_sum (map match_cost ms) <= length s).
  - simpl. lia.
  - intros c s' _ H. simpl. lia.
  - intros s' ident text rest Hm H. simpl.
    apply match_alternatives_sound in Hm. destruct Hm as [sub [-> Ho]].
    apply occurrence_length in Ho. rewrite length_app.
    unfold match_cost at 1. simpl. lia.
Qed.

(** The matches of a content do not overlap, so that together they are no
    longer than the content: the identifiers and literals of all matches,
    with four characters more for each match, fit in its length. There are
    in particular at most a quarter as many matches as characters, and the
    mapping has no more entries than there are matches. *)
Theorem matches_fit_in_the_content (file_path content : str)
    (identifiers : list str) (encoding : str) :
  let matches := findall identifiers content in
  let strings := fst (extract_localization_strings file_path (Some content)
                        identifiers encoding) in
  list_sum (map match_cost matches) <= length content
  /\ 4 * length matches <= length content
  /\ length strings <= length matches.
Proof.
  simpl. fold (collect (findall identifiers content) []).
  pose proof (findall_cost identifiers content) as Hc.
  split; [exact Hc|]. split.
  - assert (H : forall ms, 4 * length ms <= list_sum (map match_cost ms)).
    { induction ms as [|m ms IH]; simpl; [lia|]. unfold match_cost at 1. lia. }
    specialize (H (findall identifiers content)). lia.
  - rewrite <- (length_map fst (collect _ _)).
    fold (dict_keys (collect (findall identifiers content) [])).
    rewrite collect_keys_empty.
    rewrite <- (length_map key_of (findall identifiers content)).
    apply first_occurrences_length.
Qed.

(** Every match of the scan is an occurrence that stands in the content:
    the content is some text, then an identifier of the pattern with the
    bracketed quoted literal of the match behind it, then some text. *)
Theorem matches_stand_in_the_content (identifiers : list str) (content : str) :
  Forall (fun m => exists before sub after,
            content = before ++ sub ++ after /\
            occurrence (alternatives identifiers) sub (fst m) (snd m))
         (findall identifiers content).
Proof.
  apply findall_cases with
    (P := fun s ms =>
            Forall (fun m => exists before sub after,
                      s = before ++ sub ++ after /\
                      occurrence (alternatives identifiers) sub (fst m) (snd m)) ms).
  - constructor.
  - intros c s _ H. eapply Forall_impl; [|exact H].
    intros m (before & sub & after & -> & Ho).
    exists (c :: before), sub, after. split; [reflexivity|exact Ho].
  - intros s ident text rest Hm H.
    apply match_alternatives_sound in Hm. destruct Hm as [sub [-> Ho]].
    constructor.
    + exists [], sub, rest. split; [reflexivity|exact Ho].
    + eapply Forall_impl; [|exact H].
      intros m (before & sub' & after & -> & Ho').
      exists (sub ++ before), sub', after.
      split; [rewrite <- app_assoc; reflexivity|exact Ho'].
Qed.

Lemma match_at_needs (identifiers : list str) (s ident text rest : str) :
  match_at identifiers s = Some (ident, text, rest) ->
  exists ob q cb,
    In ob s /\ is_open ob = true /\ In q s /\ is_quote q = true /\
    In cb s /\ is_close cb = true.
Proof.
  intros Hm. apply match_alternatives_sound in Hm.
  destruct Hm as [sub [-> [_ [tail [-> (ws & ob & q & cb & _ & Ho & Hq & _ & Hc & ->)]]]]].
  exists ob, q, cb. repeat split; try assumption.
  - apply in_or_app. left. apply in_or_app. right.
    apply in_or_app. right. left. reflexivity.
  - apply in_or_app. left. apply in_or_app. right.
    apply in_or_app. right. right. left. reflexivity.
  - apply in_or_app. left. apply in_or_app. right.
    apply in_or_app. right. right. right.
    apply in_or_app. right. right. left. reflexivity.
Qed.

(** A content that holds no opening bracket, or no quote, or no closing
    bracket gives the empty mapping and prints nothing, whatever the
    identifiers. *)
Theorem nothing_without_brackets_or_quotes (file_path content : str)
    (identifiers : list str) (encoding : str) :
  Forall (fun c => is_open c = false) content
  \/ Forall (fun c => is_quote c = false) content
  \/ Forall (fun c => is_close c = false) content ->
  extract_localization_strings file_path (Some content) identifiers encoding
  = ([], []).
Proof.
  intros H. unfold extract_localization_strings.
  replace (findall identifiers content) with (@nil (str * str)); [reflexivity|].
  symmetry. revert H.
  apply findall_cases with
    (P := fun s ms =>
            Forall (fun c => is_open c = false) s
            \/ Forall (fun c => is_quote c = false) s
            \/ Forall (fun c => is_close c = false) s -> ms = []).
  - reflexivity.
  - intros c s _ IH H. apply IH.
    destruct H as [H|[H|H]]; inversion H; auto.
  - intros s ident text rest Hm _ H. exfalso.
    apply match_at_needs in Hm.
    destruct Hm as (ob & q & cb & Iob & Ho & Iq & Hq & Icb & Hc).
    destruct H as [H|[H|H]]; rewrite Forall_forall in H.
    + specialize (H _ Iob). congruence.
    + specialize (H _ Iq). congruence.
    + specialize (H _ Icb). congruence.
Qed.

Lemma nothing_without_brackets_or_quotes_witness :
  extract_localization_strings (lit "/addon/a.lua")
    (Some (lit "local L = 'Hello' -- AL, C")) L_AL_C (lit "utf-8")
  = ([], []).
Proof.
  apply nothing_without_brackets_or_quotes.
  left. repeat constructor.
Defined.

(** ** What a run prints *)

(** The lines that one file of the walk adds to the console. *)
Definition lines_of_file (source_dir excluded_dirs : list str) (encoding : str)
    (f : lua_file) : list message :=
  if is_excluded excluded_dirs (source_dir ++ relative_parts f) then []
  else Processing (path_str (relative_parts f))
       :: match read f with
          | Some _ => []
          | None => [DecodeError (path_str (source_dir ++ relative_parts f)) encoding]
          end.

Lemma scan_printed (source_dir excluded_dirs identifiers : list str)
    (encoding : str) (walk : list lua_file) (st : scan) :
  printed (fold_left (scan_file source_dir excluded_dirs identifiers encoding) walk st)
  = printed st ++ flat_map (lines_of_file source_dir excluded_dirs encoding) walk.
Proof.
  revert st; induction walk as [|f walk IH]; intros st; simpl.
  - rewrite app_nil_r. reflexivity.
  - rewrite IH. unfold lines_of_file at 2.
    fold (skipped source_dir excluded_dirs f).
    destruct (skipped source_dir excluded_dirs f) eqn:Hs.
    + rewrite (scan_file_skipped _ _ identifiers encoding _ _ Hs). reflexivity.
    + destruct (scan_file_kept _ _ identifiers encoding st f Hs) as (_ & _ & ->).
      rewrite <- app_assoc. simpl. destruct (read f); reflexivity.
Qed.

(** The console of a run, line by line: for each file of the walk that is
    not skipped, in the order of the walk, the line that names its
    relative path, followed by the line of the decode error when the file
    cannot be decoded; then the line with the count of the files not
    skipped and the elapsed time; then the line that names the target. A
    skipped file prints nothing. *)
Theorem console_of_a_run
    (source_dir : list str) (target_file : str)
    (excluded_dirs identifiers : list str) (encoding : str)
    (walk : list lua_file) (previous : str) (start_time end_time : Z) :
  console (process_directory source_dir target_file excluded_dirs identifiers
             encoding walk previous start_time end_time)
  = flat_map (lines_of_file source_dir excluded_dirs encoding) walk
    ++ [Processed
          (length (filter (fun f => negb (is_excluded excluded_dirs
                                            (source_dir ++ relative_parts f)))
                          walk))
          (end_time - start_time);
        Saved target_file].
Proof.
  simpl. rewrite scan_printed, scan_count. reflexivity.
Qed.

(** ** Runs that write nothing *)

Lemma dict_set_not_empty {V} (k : str) (v : V) (d : dict V) : dict_set k v d <> [].
Proof.
  destruct d as [|[k' v'] d]; simpl; [discriminate|].
  destruct (str_eqb k' k); discriminate.
Qed.

Lemma collect_empty (ms : list (str * str)) : collect ms [] = [] <-> ms = [].
Proof.
  split; [|intros ->; reflexivity].
  intros H. pose proof (collect_keys_empty ms) as E. rewrite H in E.
  destruct ms as [|m ms]; [reflexivity|discriminate E].
Qed.

Lemma truthy_false {V} (d : dict V) : truthy d = false <-> d = [].
Proof. destruct d; simpl; split; congruence. Qed.

Lemma scan_all_strings_empty (source_dir excluded_dirs identifiers : list str)
    (encoding : str) (walk : list lua_file) (st : scan) :
  all_strings (fold_left (scan_file source_dir excluded_dirs identifiers encoding)
                 walk st) = []
  <-> all_strings st = []
      /\ forall f, In f walk ->
           skipped source_dir excluded_dirs f = true
           \/ strings_of source_dir identifiers encoding f = [].
Proof.
  revert st; induction walk as [|f walk IH]; intros st; simpl.
  - split; [intros H; split; [exact H|intros f []]|intros [H _]; exact H].
  - rewrite IH. destruct (skipped source_dir excluded_dirs f) eqn:Hs.
    + rewrite (scan_file_skipped _ _ identifiers encoding _ _ Hs).
      split; intros [H1 H2]; (split; [exact H1|]).
      * intros g [<-|Hg]; [left; exact Hs|exact (H2 g Hg)].
      * intros g Hg. apply H2. right; exact Hg.
    + destruct (scan_file_kept _ _ identifiers encoding st f Hs) as (-> & _).
      destruct (truthy (strings_of source_dir identifiers encoding f)) eqn:Ht.
      * split; intros [H1 H2].
        -- exfalso. exact (dict_set_not_empty _ _ _ H1).
        -- exfalso. destruct (H2 f (or_introl eq_refl)) as [H|H].
           ++ congruence.
           ++ rewrite H in Ht. discriminate.
      * apply truthy_false in Ht.
        split; intros [H1 H2]; (split; [exact H1|]).
        -- intros g [<-|Hg]; [right; exact Ht|exact (H2 g Hg)].
        -- intros g Hg. apply H2. right; exact Hg.
Qed.

Lemma block_not_empty (b : str * dict str) : block b <> [].
Proof. unfold block. simpl. discriminate. Qed.

(** The target is left empty by a run exactly when every file of the walk
    that is not skipped and can be decoded holds no match: files that are
    skipped and files that cannot be decoded never make the run write. *)
Theorem target_empty_iff
    (source_dir : list str) (target_file : str)
    (excluded_dirs identifiers : list str) (encoding : str)
    (walk : list lua_file) (previous : str) (start_time end_time : Z) :
  target_text (process_directory source_dir target_file excluded_dirs identifiers
                 encoding walk previous start_time end_time) = []
  <-> forall f content,
        In f walk ->
        is_excluded excluded_dirs (source_dir ++ relative_parts f) = false ->
        read f = Some content ->
        findall identifiers content = [].
Proof.
  simpl. rewrite write_blocks. unfold open_w. simpl.
  assert (Hflat : forall blocks : dict (dict str),
            flat_map block blocks = [] <-> blocks = []).
  { intros [|b blocks]; [simpl; tauto|]. split; [|discriminate].
    intros H. change (block b ++ flat_map block blocks = []) in H.
    apply app_eq_nil in H. destruct H as [H _].
    exfalso. exact (block_not_empty b H). }
  rewrite Hflat, scan_all_strings_empty. simpl. split.
  - intros [_ H] f content Hin Hex Hread.
    destruct (H f Hin) as [Hs|Hs]; [unfold skipped in Hs; congruence|].
    unfold strings_of in Hs. rewrite Hread in Hs. simpl in Hs.
    apply collect_empty. exact Hs.
  - intros H. split; [reflexivity|]. intros f Hin.
    destruct (skipped source_dir excluded_dirs f) eqn:Hs; [left; reflexivity|].
    right. unfold strings_of. destruct (read f) as [content|] eqn:Hread;
      [|reflexivity].
    simpl. apply collect_empty. exact (H f content Hin Hs Hread).
Qed.

Lemma scan_all_skipped (source_dir excluded_dirs identifiers : list str)
    (encoding : str) (walk : list lua_file) (st : scan) :
  (forall f, In f walk -> skipped source_dir excluded_dirs f = true) ->
  fold_left (scan_file source_dir excluded_dirs identifiers encoding) walk st = st.
Proof.
  revert st; induction walk as [|f walk IH]; intros st H; simpl; [reflexivity|].
  rewrite (scan_file_skipped _ _ identifiers encoding _ _ (H f (or_introl eq_refl))).
  apply IH. intros g Hg. apply H. right; exact Hg.
Qed.

Lemma is_excluded_app_l (excluded_dirs a b : list str) :
  is_excluded excluded_dirs a = true -> is_excluded excluded_dirs (a ++ b) = true.
Proof.
  rewrite !is_excluded_iff. intros [e [Hin Hp]].
  exists e. split; [exact Hin|apply in_or_app; left; exact Hp].
Qed.

(** The segments of the source directory are tested with those of each
    file: when the path of the source directory itself holds an excluded
    name, every file is skipped, whatever the walk yields; the run counts
    no file, prints only its two closing lines and leaves the target
    empty. *)
Theorem excluded_source_directory
    (source_dir : list str) (target_file : str)
    (excluded_dirs identifiers : list str) (encoding : str)
    (walk : list lua_file) (previous : str) (start_time end_time : Z) :
  is_excluded excluded_dirs source_dir = true ->
  let r := process_directory source_dir target_file excluded_dirs identifiers
             encoding walk previous start_time end_time in
  processed r = 0
  /\ target_text r = []
  /\ console r = [Processed 0 (end_time - start_time); Saved target_file].
Proof.
  intros Hex. simpl.
  rewrite scan_all_skipped.
  - simpl. auto.
  - intros f _. apply is_excluded_app_l. exact Hex.
Qed.

Lemma excluded_source_directory_witness :
  processed (process_directory [lit "/"; lit "home"; lit "lib"; lit "addon"]
               (lit "out.lua") get_default_excluded_dirs L_AL_C (lit "utf-8")
               [greeting] [] 0 1) = 0.
Proof.
  exact (proj1 (excluded_source_directory
                  [lit "/"; lit "home"; lit "lib"; lit "addon"] (lit "out.lua")
                  get_default_excluded_dirs L_AL_C (lit "utf-8")
                  [greeting] [] 0 1 eq_refl)).
Defined.

(** ** More excluded names, longer walks *)

Lemma filter_length_mono {A} (p q : A -> bool) (l : list A) :
  (forall x, p x = true -> q x = true) ->
  length (filter p l) <= length (filter q l).
Proof.
  intros H. induction l as [|x l IH]; simpl; [lia|].
  destruct (p x) eqn:Hp.
  - rewrite (H x Hp). simpl. lia.
  - destruct (q x); simpl; lia.
Qed.

Lemma is_excluded_incl (ex1 ex2 parts : list str) :
  (forall name, In name ex1 -> In name ex2) ->
  is_excluded ex1 parts = true -> is_excluded ex2 parts = true.
Proof.
  intros H. rewrite !is_excluded_iff. intros [e [Hin Hp]].
  exists e. split; [exact (H e Hin)|exact Hp].
Qed.

(** The count of a run of [main] depends on the source directory, the
    excluded names and the walk only. Of two runs over the same walk from
    the same source directory, the one that is given every excluded name
    of the other, and maybe more, counts no more files than the other,
    whatever the identifiers, the encoding and the target of either; and
    no run counts more files than the walk yields. *)
Theorem more_excluded_names_fewer_files (args1 args2 : arguments)
    (walk : list lua_file) (previous1 previous2 : str)
    (start1 end1 start2 end2 : Z) :
  source args1 = source args2 ->
  (forall name, In name (exclude args1) -> In name (exclude args2)) ->
  processed (main args2 walk previous2 start2 end2)
    <= processed (main args1 walk previous1 start1 end1)
  /\ processed (main args1 walk previous1 start1 end1) <= length walk.
Proof.
  intros Hsrc Hincl. unfold main, process_directory. cbn [processed].
  rewrite !scan_count. change (file_count scan_start) with 0.
  rewrite !Nat.add_0_l. split.
  - apply filter_length_mono. intros f Hf. unfold skipped in *.
    rewrite <- Hsrc in Hf.
    destruct (is_excluded (get_default_excluded_dirs ++ exclude args1)
                (source args1 ++ relative_parts f)) eqn:E; [|reflexivity].
    exfalso. apply (is_excluded_incl _ (get_default_excluded_dirs ++ exclude args2)) in E.
    + rewrite E in Hf. discriminate Hf.
    + intros name Hin. apply in_app_or in Hin. apply in_or_app.
      destruct Hin as [Hin|Hin]; [left; exact Hin|right; exact (Hincl _ Hin)].
  - apply filter_length_le.
Qed.

Definition plain_arguments : arguments :=
  {| source := [lit "/"; lit "addon"];
     target := [lit "/"; lit "addon"; lit "Dict"];
     exclude := [];
     encoding_arg := lit "utf-8";
     identifiers_arg := default_identifiers |}.

Definition arguments_without_ui : arguments :=
  {| source := [lit "/"; lit "addon"];
     target := [lit "/"; lit "out"];
     exclude := [lit "UI"];
     encoding_arg := lit "latin-1";
     identifiers_arg := lit "T" |}.

Lemma more_excluded_names_fewer_files_witness :
  processed (main arguments_without_ui [greeting; undecodable] [] 0 1)
    <= processed (main plain_arguments [greeting; undecodable] [] 5 9).
Proof.
  apply (more_excluded_names_fewer_files plain_arguments arguments_without_ui
           [greeting; undecodable] [] [] 5 9 0 1).
  - reflexivity.
  - intros name [].
Defined.

Lemma results_app (source_dir excluded_dirs identifiers : list str)
    (encoding : str) (w1 w2 : list lua_file) :
  results source_dir excluded_dirs identifiers encoding (w1 ++ w2)
  = results source_dir excluded_dirs identifiers encoding w1
    ++ results source_dir excluded_dirs identifiers encoding w2.
Proof. unfold results. rewrite filter_app, map_app, filter_app. reflexivity. Qed.

(** A run over a walk made of two walks, whose files all have distinct
    relative paths, writes the text of the run over the first followed by
    the text of the run over the second, and counts the files of both. *)
Theorem runs_compose_over_walks
    (source_dir : list str) (target_file : str)
    (excluded_dirs identifiers : list str) (encoding : str)
    (walk1 walk2 : list lua_file) (previous : str) (start_time end_time : Z) :
  NoDup (map relative_path (walk1 ++ walk2)) ->
  let run := fun walk =>
    process_directory source_dir target_file excluded_dirs identifiers
      encoding walk previous start_time end_time in
  target_text (run (walk1 ++ walk2))
    = target_text (run walk1) ++ target_text (run walk2)
  /\ processed (run (walk1 ++ walk2)) = processed (run walk1) + processed (run walk2).
Proof.
  intros Hnd. simpl. rewrite !write_blocks. unfold open_w. simpl.
  rewrite map_app in Hnd.
  pose proof (NoDup_app_remove_r _ _ Hnd) as Hnd1.
  pose proof (NoDup_app_remove_l _ _ Hnd) as Hnd2.
  rewrite <- map_app in Hnd. split.
  - rewrite !scan_all_strings; try assumption; try (intros f _ []).
    simpl. rewrite results_app, flat_map_app. reflexivity.
  - rewrite !scan_count, filter_app, length_app. reflexivity.
Qed.

Lemma runs_compose_over_walks_witness :
  processed (process_directory [lit "/"; lit "addon"] (lit "out.lua")
               get_default_excluded_dirs L_AL_C (lit "utf-8")
               ([hello_file] ++ [world_file]) [] 0 1)
  = processed (process_directory [lit "/"; lit "addon"] (lit "out.lua")
                 get_default_excluded_dirs L_AL_C (lit "utf-8") [hello_file] [] 0 1)
    + processed (process_directory [lit "/"; lit "addon"] (lit "out.lua")
                   get_default_excluded_dirs L_AL_C (lit "utf-8") [world_file] [] 0 1).
Proof.
  apply (runs_compose_over_walks [lit "/"; lit "addon"] (lit "out.lua")
           get_default_excluded_dirs L_AL_C (lit "utf-8")
           [hello_file] [world_file] [] 0 1).
  repeat constructor; simpl; intuition discriminate.
Defined.

(** ** Looking a match up *)

Lemma app_cons_first (c : ascii) (a b x y : str) :
  ~ In c a -> ~ In c b -> a ++ c :: x = b ++ c :: y -> a = b /\ x = y.
Proof.
  revert b; induction a as [|u a IH]; intros [|v b] Ha Hb E; simpl in *.
  - injection E as ->. auto.
  - injection E as -> _. tauto.
  - injection E as -> _. tauto.
  - injection E as -> E. destruct (IH b) as [-> ->]; auto.
Qed.

Lemma composite_key_injective (ident1 ident2 text1 text2 : str) :
  ~ In lbracket ident1 -> ~ In lbracket ident2 ->
  composite_key ident1 text1 = composite_key ident2 text2 ->
  ident1 = ident2 /\ text1 = text2.
Proof.
  unfold composite_key. intros H1 H2 E.
  destruct (app_cons_first _ _ _ _ _ H1 H2 E) as [-> E'].
  injection E' as E'. apply app_inv_tail in E'. auto.
Qed.

Lemma findall_identifiers (identifiers : list str) (s : str) :
  Forall (fun m => In (fst m) (alternatives identifiers)) (findall identifiers s).
Proof.
  apply findall_cases with
    (P := fun _ ms => Forall (fun m => In (fst m) (alternatives identifiers)) ms).
  - constructor.
  - intros c s' _ H. exact H.
  - intros s' ident text rest Hm H. constructor; [|exact H].
    apply match_alternatives_sound in Hm. destruct Hm as [sub [_ [Hin _]]].
    exact Hin.
Qed.

Lemma last_value_found (k v : str) (ms : list (str * str)) :
  last_value k ms = Some v -> exists m, In m ms /\ key_of m = k /\ snd m = v.
Proof.
  induction ms as [|m ms IH]; simpl; [discriminate|].
  destruct (last_value k ms) as [v'|].
  - intros H. destruct (IH H) as [m' [Hin Hm]]. exists m'. split; [right|]; assumption.
  - destruct (str_eqb (key_of m) k) eqn:E; [|discriminate].
    intros H; injection H as <-. apply str_eqb_eq in E.
    exists m. split; [left; reflexivity|split; [exact E|reflexivity]].
Qed.

Lemma last_value_some (m : str * str) (ms : list (str * str)) :
  In m ms -> last_value (key_of m) ms <> None.
Proof.
  induction ms as [|m' ms IH]; simpl; [tauto|].
  intros [->|Hin].
  - destruct (last_value (key_of m) ms); [discriminate|].
    rewrite str_eqb_refl. discriminate.
  - destruct (last_value (key_of m) ms); [discriminate|].
    exfalso. exact (IH Hin eq_refl).
Qed.

(** When no identifier holds an opening square bracket, the key of a
    match tells its identifier and its literal, so that assigning under a
    key that is already there never changes a value: every match of the
    content is found in the mapping, under its key, with its own literal. *)
Theorem every_match_is_looked_up (file_path content : str)
    (identifiers : list str) (encoding : str) (ident text : str) :
  Forall (fun i => ~ In lbracket i) identifiers ->
  In (ident, text) (findall identifiers content) ->
  dict_get (composite_key ident text)
    (fst (extract_localization_strings file_path (Some content)
            identifiers encoding))
  = Some text.
Proof.
  intros Hids Hin. simpl. fold (collect (findall identifiers content) []).
  rewrite collect_get. simpl.
  pose proof (last_value_some _ _ Hin) as Hsome. unfold key_of in Hsome at 1.
  simpl in Hsome.
  destruct (last_value (composite_key ident text) (findall identifiers content))
    as [v|] eqn:Hl; [|congruence].
  apply last_value_found in Hl. destruct Hl as [[i t] [Hm [Hk <-]]].
  assert (Halt : forall j, In j (alternatives identifiers) -> ~ In lbracket j).
  { intros j Hj. destruct identifiers as [|a ids]; simpl in Hj.
    - destruct Hj as [<-|[]]. intros [].
    - rewrite Forall_forall in Hids. apply Hids. exact Hj. }
  pose proof (findall_identifiers identifiers content) as Fi.
  rewrite Forall_forall in Fi.
  unfold key_of in Hk. simpl in Hk.
  destruct (composite_key_injective i ident t text) as [_ ->]; auto.
  - apply Halt. exact (Fi _ Hm).
  - apply Halt. exact (Fi _ Hin).
Qed.

Lemma every_match_is_looked_up_witness :
  dict_get (composite_key (lit "L") (lit "Hello"))
    (fst (extract_localization_strings (lit "/addon/a.lua")
            (Some (lit "L['Hello'] L('Hello') AL['x']")) L_AL_C (lit "utf-8")))
  = Some (lit "Hello").
Proof.
  apply every_match_is_looked_up.
  - repeat (constructor;
            [let H := fresh in intro H; vm_compute in H; intuition discriminate|]).
    constructor.
  - vm_compute. left. reflexivity.
Defined.

(** * Reads that raise *)

(** What opening and reading a file under the configured encoding does:
    it gives the text, or raises [UnicodeDecodeError], or raises another
    exception, among them the [UnicodeError] with which the utf-16 and
    utf-32 codecs refuse a text that has no byte order mark. *)
Inductive reading : Type :=
| Decoded (content : str)
| RaisesUnicodeDecodeError
| RaisesOtherError.

(** A file that [rglob] yields: its path below the source directory and
    what reading it does. *)
Record walked_file : Type := {
  below : list str;
  reading_of : reading
}.

(** [extract_localization_strings] with the exceptions it lets through:
    the handler is for [UnicodeDecodeError] alone, [None] is an exception
    that leaves the function. *)
Definition extract_or_raise (file_path : str) (r : reading)
    (identifiers : list str) (encoding : str) : option (dict str * list message) :=
  match r with
  | Decoded content =>
      Some (extract_localization_strings file_path (Some content) identifiers encoding)
  | RaisesUnicodeDecodeError =>
      Some (extract_localization_strings file_path None identifiers encoding)
  | RaisesOtherError => None
  end.

(** The loop of [process_directory] up to the first exception: the
    variables of the loop and what was printed, and whether the loop came
    to its end. A skipped file is not opened. *)
Fixpoint scan_walk (source_dir excluded_dirs identifiers : list str)
    (encoding : str) (walk : list walked_file) (st : scan) : scan * bool :=
  match walk with
  | [] => (st, true)
  | w :: rest =>
      let parts := source_dir ++ below w in
      if is_excluded excluded_dirs parts
      then scan_walk source_dir excluded_dirs identifiers encoding rest st
      else
        let relative_path := path_str (below w) in
        match extract_or_raise (path_str parts) (reading_of w) identifiers encoding with
        | Some (strings, errors) =>
            scan_walk source_dir excluded_dirs identifiers encoding rest
              {| all_strings :=
                   if truthy strings
                   then dict_set relative_path strings (all_strings st)
                   else all_strings st;
                 file_count := S (file_count st);
                 printed := printed st ++ Processing relative_path :: errors |}
        | None =>
            ({| all_strings := all_strings st;
                file_count := file_count st;
                printed := printed st ++ [Processing relative_path] |}, false)
        end
  end.

(** A run comes to its end, or an exception ends it during the loop: the
    target is then never opened and keeps what it held. *)
Inductive run_result : Type :=
| Completed (r : outcome)
| Aborted (target_left : str) (printed_so_far : list message).

Definition run_directory (source_dir : list str) (target_file : str)
    (excluded_dirs identifiers : list str) (encoding : str)
    (walk : list walked_file) (previous : str) (start_time end_time : Z) : run_result :=
  let (st, finished) :=
    scan_walk source_dir excluded_dirs identifiers encoding walk scan_start in
  if finished then
    Completed
      {| target_text := fold_left write_block (all_strings st) (open_w previous);
         console := printed st ++ [Processed (file_count st) (end_time - start_time);
                                   Saved target_file];
         processed := file_count st |}
  else Aborted previous (printed st).

(** The file as the loop sees it when its read does not end the run. *)
Definition as_read (w : walked_file) : lua_file :=
  {| relative_parts := below w;
     read := match reading_of w with Decoded content => Some content | _ => None end |}.

Lemma scan_walk_completes (source_dir excluded_dirs identifiers : list str)
    (encoding : str) (walk : list walked_file) (st : scan) :
  (forall w, In w walk ->
     is_excluded excluded_dirs (source_dir ++ below w) = true
     \/ reading_of w <> RaisesOtherError) ->
  scan_walk source_dir excluded_dirs identifiers encoding walk st
  = (fold_left (scan_file source_dir excluded_dirs identifiers encoding)
       (map as_read walk) st, true).
Proof.
  revert st; induction walk as [|w walk IH]; intros st H; simpl; [reflexivity|].
  assert (Hrest : forall w', In w' walk ->
            is_excluded excluded_dirs (source_dir ++ below w') = true
            \/ reading_of w' <> RaisesOtherError)
    by (intros w' Hw'; apply H; right; exact Hw').
  unfold scan_file at 2. simpl.
  destruct (is_excluded excluded_dirs (source_dir ++ below w)) eqn:Hex.
  - apply IH. exact Hrest.
  - destruct (H w (or_introl eq_refl)) as [Hc|Hc]; [congruence|].
    destruct (reading_of w) as [content| |] eqn:E; simpl.
    + apply IH. exact Hrest.
    + apply IH. exact Hrest.
    + congruence.
Qed.

Lemma run_directory_completes (source_dir : list str) (target_file : str)
    (excluded_dirs identifiers : list str) (encoding : str)
    (walk : list walked_file) (previous : str) (start_time end_time : Z) :
  (forall w, In w walk ->
     is_excluded excluded_dirs (source_dir ++ below w) = true
     \/ reading_of w <> RaisesOtherError) ->
  run_directory source_dir target_file excluded_dirs identifiers encoding
    walk previous start_time end_time
  = Completed (process_directory source_dir target_file excluded_dirs identifiers
                 encoding (map as_read walk) previous start_time end_time).
Proof.
  intros H. unfold run_directory. rewrite (scan_walk_completes _ _ _ _ _ _ H).
  reflexivity.
Qed.

Lemma blocks_empty (blocks : dict (dict str)) :
  flat_map block blocks = [] -> blocks = [].
Proof.
  destruct blocks as [|b blocks]; [reflexivity|]. intros H.
  change (block b ++ flat_map block blocks = []) in H.
  apply app_eq_nil in H. destruct H as [H _].
  exfalso. exact (block_not_empty b H).
Qed.

Lemma results_hold (source_dir excluded_dirs identifiers : list str)
    (encoding : str) (walk : list walked_file) (w : walked_file) (content : str) :
  In w walk ->
  is_excluded excluded_dirs (source_dir ++ below w) = false ->
  reading_of w = Decoded content ->
  findall identifiers content <> [] ->
  In (path_str (below w), collect (findall identifiers content) [])
     (results source_dir excluded_dirs identifiers encoding (map as_read walk)).
Proof.
  intros Hin Hex Hread Hms. unfold results. apply filter_In. split.
  - apply in_map_iff. exists (as_read w). split.
    + unfold relative_path, strings_of, as_read. simpl. rewrite Hread. reflexivity.
    + apply filter_In. split; [apply in_map; exact Hin|].
      unfold skipped, as_read. simpl. rewrite Hex. reflexivity.
  - simpl. destruct (collect (findall identifiers content) []) eqn:E; [|reflexivity].
    apply (proj1 (collect_empty _)) in E. congruence.
Qed.


Definition raises_decode_error : walked_file :=
  {| below := [lit "broken.lua"]; reading_of := RaisesUnicodeDecodeError |}.

Definition without_byte_order_mark : walked_file :=
  {| below := [lit "broken.lua"]; reading_of := RaisesOtherError |}.

Definition greeting_read : walked_file :=
  {| below := [lit "ui"; lit "greeting.lua"];
     reading_of := Decoded (lit "print(L['Hello'])") |}.



(** * A second run *)

(** The file that the first run of [main] with [plain_arguments] writes:
    the target directory Dict lies in the source directory, and the
    target is a Lua file. *)
Definition first_target : lua_file :=
  {| relative_parts := [lit "Dict"; lit "localization_strings.lua"];
     read := Some (target_text (main plain_arguments [hello_file] [] 0 1)) |}.

(** C8. Two runs with the same arguments over the same sources do not
    write the same text when the target lies below the source directory,
    as it does with the default arguments. The default excluded names
    hold dict, but the segment Dict of the target is compared as it is
    written, so the walk of the second run yields the target of the first
    run and the file is not skipped: the second run counts two files where
    the first counted one and writes another text, wherever the walk
    places that file. A target directory named dict would be skipped. *)
Theorem second_run_reads_the_first_target :
  let r1 := main plain_arguments [hello_file] [] 0 1 in
  let r2 := main plain_arguments [hello_file; first_target] (target_text r1) 1 2 in
  let r2' := main plain_arguments [first_target; hello_file] (target_text r1) 1 2 in
  In (lit "dict") (get_default_excluded_dirs ++ exclude plain_arguments)
  /\ is_excluded (get_default_excluded_dirs ++ exclude plain_arguments)
       (source plain_arguments ++ relative_parts first_target) = false
  /\ is_excluded (get_default_excluded_dirs ++ exclude plain_arguments)
       (source plain_arguments ++ [lit "dict"; lit "localization_strings.lua"]) = true
  /\ processed r1 = 1
  /\ processed r2 = 2
  /\ target_text r2 <> target_text r1
  /\ target_text r2' <> target_text r1.
Proof.
  repeat split; try (vm_compute; reflexivity); try differ.
  simpl. auto 10.
Qed.
